(** * rospo sshd: the server-side tunnelling engine

    A shallow embedding of the server of package [sshd]: the
    authorized-keys loader and the public-key callback, the global-request
    loop with its forwards registry and keep-alive goroutines, and the
    channel dispatcher.

    Go strings are byte strings and are modelled by [string]; [[]byte] is
    [list byte]; [uint32] is [N]; [map[string]T] is [gmap string T]. *)

From Stdlib Require Import Strings.String Strings.Ascii Strings.Byte NArith ZArith List Lia.
From stdpp Require Import gmap strings list pretty.
From Equations.Prop Require Import Equations Logic.

Local Open Scope string_scope.
Local Open Scope list_scope.

(** ** Go runtime and standard-library helpers *)

Module Go.

(** The result of a call that may end the process: [log.Fatal*] prints and
    calls [os.Exit(1)], so the caller never sees a return value. *)
Inductive Outcome (A : Type) : Type :=
| Return (a : A)
| Exit (status : N).
Arguments Return {A} a.
Arguments Exit {A} status.

(** [strings.Contains(s, substr)]. *)
Fixpoint Contains (s substr : string) : bool :=
  String.prefix substr s ||
  match s with
  | EmptyString => false
  | String _ s' => Contains s' substr
  end.

(** The double-quote character. *)
Definition dquote : ascii := "034"%char.

End Go.

Export Go.

(** ** The library surface the server is written against

    [golang.org/x/crypto/ssh], [fmt] and the repository's [utils] package
    are outside the file under study; the server is verified for every
    implementation of the calls it makes. *)

Class SshLib := {
  (** [ssh.PublicKey] *)
  PublicKey : Type;
  key_Type : PublicKey -> string;
  key_Marshal : PublicKey -> list byte;
  FingerprintSHA256 : PublicKey -> string;
  (** [ssh.ParseAuthorizedKey]: the first key of the input and the bytes
      after its line, or an error. *)
  ParseAuthorizedKey : list byte -> option (PublicKey * list byte);
  ParseAuthorizedKey_rest :
    forall bs k rest, ParseAuthorizedKey bs = Some (k, rest) ->
                      length rest < length bs;
  (** [ssh.Unmarshal] into [struct { Addr string; Port uint32 }] *)
  Unmarshal : list byte -> option (string * N);
  (** [ssh.Marshal] of [struct { Port uint32 }] *)
  Marshal : N -> list byte;
  (** the [%q] verb of [fmt] on a string *)
  Quote : string -> string;
  (** [utils.ExpandUserHome] *)
  ExpandUserHome : string -> option string
}.

(** [ioutil.ReadFile] at one moment: the content of each readable path. *)
Definition FileSystem : Type := string -> option (list byte).

(** ** Authentication *)

Record ConnMetadata := {
  User : string;
  RemoteAddr : string
}.

(** [ssh.Permissions]; only [Extensions] is ever set by the server. *)
Record Permissions := {
  Extensions : gmap string string
}.

Inductive LogLine :=
| LogAuthenticate (remote : string) (keyType : string).

Section Auth.
Context `{Lib : SshLib}.

(** [string(pubKey.Marshal())], the key of the authorized-keys map. *)
Definition keyString (pubKey : PublicKey) : string :=
  string_of_list_byte (key_Marshal pubKey).

(** The loop of [loadAuthorizedKeys]:
    [for len(authorizedKeysBytes) > 0 { ... }]. A parse error is
    [log.Fatal(err)]. *)
Equations? parseAll (authorizedKeysBytes : list byte)
    (authorizedKeysMap : gmap string bool) : Outcome (gmap string bool)
    by wf (length authorizedKeysBytes) lt :=
  parseAll [] m := Return m;
  parseAll (b :: bs) m with inspect (ParseAuthorizedKey (b :: bs)) := {
    | exist _ None _ := Exit 1;
    | exist _ (Some (pubKey, rest)) Hp :=
        parseAll rest (<[keyString pubKey := true]> m) }.
Proof. exact (ParseAuthorizedKey_rest _ _ _ Hp). Qed.

(** The file cannot be parsed: [ssh.ParseAuthorizedKey] returns an error on
    what is left of it after zero or more keys. *)
Inductive ParseFails : list byte -> Prop :=
| fails_here b bs :
    ParseAuthorizedKey (b :: bs) = None -> ParseFails (b :: bs)
| fails_later b bs k rest :
    ParseAuthorizedKey (b :: bs) = Some (k, rest) ->
    ParseFails rest -> ParseFails (b :: bs).

(** [sshServer.loadAuthorizedKeys], given the configured path. *)
Definition loadAuthorizedKeys (authorizedKeyFile : string) (fs : FileSystem)
    : Outcome (gmap string bool) :=
  match ExpandUserHome authorizedKeyFile with
  | None => Exit 1
  | Some path =>
      match fs path with
      | None => Exit 1
      | Some authorizedKeysBytes => parseAll authorizedKeysBytes ∅
      end
  end.

(** Indexing a [map[string]bool]: a missing key reads as [false]. *)
Definition index_bool (m : gmap string bool) (k : string) : bool :=
  default false (m !! k).

(** [sshServer.keyAuth]: the log line, then either the process exit of the
    loader or the returned pair (permissions, error) as a sum. *)
Definition keyAuth (authorizedKeyFile : string) (fs : FileSystem)
    (conn : ConnMetadata) (pubKey : PublicKey)
    : list LogLine * Outcome (Permissions + string) :=
  ([LogAuthenticate (RemoteAddr conn) (key_Type pubKey)],
   match loadAuthorizedKeys authorizedKeyFile fs with
   | Exit st => Exit st
   | Return authorizedKeysMap =>
       if index_bool authorizedKeysMap (keyString pubKey)
       then Return (inl {| Extensions :=
                             {[ "pubkey-fp" := FingerprintSHA256 pubKey ]} |})
       else Return (inr ("unknown public key for " +:+ Quote (User conn)))
   end).

End Auth.

(** ** The entries of an authorized-keys file *)

Section Entries.
Context `{Lib : SshLib}.

(** [Parses bs ks]: the loop of [loadAuthorizedKeys] runs to the end of
    [bs], and [ks] are the keys [ssh.ParseAuthorizedKey] hands out on the
    way, in order. *)
Inductive Parses : list byte -> list PublicKey -> Prop :=
| parses_end : Parses [] []
| parses_key b bs k rest ks :
    ParseAuthorizedKey (b :: bs) = Some (k, rest) ->
    Parses rest ks -> Parses (b :: bs) (k :: ks).

(** [authorizedKeysMap[string(pubKey.Marshal())] = true] for each key. *)
Definition storeKeys (m : gmap string bool) (ks : list PublicKey)
    : gmap string bool :=
  foldl (fun m k => <[keyString k := true]> m) m ks.

End Entries.

(** ** The forwards registry, listeners and keep-alive goroutines *)

(** The identity of a [net.Listener] value. *)
Definition Listener : Type := nat.

(** [ssh.Request] *)
Record Request := {
  Type_ : string;
  WantReply : bool;
  Payload : list byte
}.

(** The [sshServer] fields the request loop works on, together with what
    they refer to at run time: [listening] holds the sockets returned by
    [net.Listen] that are not closed yet, each with the address it is
    bound to; [checkers] holds the running [checkAliveFun] goroutines,
    each with the [ln] and [addr] it was started on, in start order. All
    of them receive on the single channel [s.checkAliveStop]. *)
Record Server := {
  forwards : gmap string Listener;
  listening : gmap Listener string;
  checkers : list (Listener * string);
  nextListener : Listener
}.

(** The server as [NewSshServer] builds it: [forwards: make(map...)], no
    socket, no goroutine. *)
Definition newServer : Server :=
  {| forwards := ∅; listening := ∅; checkers := []; nextListener := 0 |}.

(** The log statements of the request loop and of [checkAliveFun]. *)
Inductive Log :=
| LogUnmarshal
| LogClosingOld
| LogListenFailed (addr : string)
| LogListening (addr : string)
| LogEndpointGone
| LogStopKeepAlive
| LogOutOfBand (req : Request).

(** What a handler or a keep-alive goroutine does, in program order.
    [EReply] is the call [req.Reply(ok, payload)] (the library puts nothing
    on the wire for a request sent with [WantReply] false); [EStop ln addr]
    is the completed send [s.checkAliveStop <- true], received by the
    [checkAliveFun] that was started on [(ln, addr)]; [EProbe err] is the
    call [s.client.SendRequest("checkalive@rospo", true, nil)] and whether
    it returned an error. *)
Inductive Event :=
| ELog (l : Log)
| ELock
| EUnlock
| EClose (ln : Listener)
| EStop (ln : Listener) (addr : string)
| EListen (addr : string) (res : option Listener)
| EReply (ok : bool) (payload : list byte)
| EGoForwardSession (ln : Listener) (laddr : string) (lport : N)
| EGoCheckAlive (ln : Listener) (addr : string)
| EStore (addr : string) (ln : Listener)
| EDelete (addr : string)
| EProbe (err : bool)
| EReturn (ln : Listener) (addr : string).

(** A computation on the server either finishes with a value, or stays
    blocked for ever on the unbuffered channel; both carry the server as
    it is then and the events emitted so far. *)
Inductive Result (A : Type) : Type :=
| Done (a : A) (s : Server) (tr : list Event)
| Blocked (s : Server) (tr : list Event).
Arguments Done {A} a s tr.
Arguments Blocked {A} s tr.

Definition M (A : Type) : Type := Server -> Result A.

Definition ret {A} (a : A) : M A := fun s => Done a s [].

Definition bind {A B} (m : M A) (k : A -> M B) : M B := fun s =>
  match m s with
  | Blocked s1 t1 => Blocked s1 t1
  | Done a s1 t1 =>
      match k a s1 with
      | Done b s2 t2 => Done b s2 (t1 ++ t2)
      | Blocked s2 t2 => Blocked s2 (t1 ++ t2)
      end
  end.

Declare Scope go_scope.
Delimit Scope go_scope with go.
Notation "x <- m ; k" := (bind m (fun x => k))
  (at level 100, m at next level, right associativity) : go_scope.
Notation "m ;; k" := (bind m (fun _ => k))
  (at level 100, right associativity) : go_scope.
Local Open Scope go_scope.

Definition trace {A} (r : Result A) : list Event :=
  match r with Done _ _ tr => tr | Blocked _ tr => tr end.

Definition final {A} (r : Result A) : Server :=
  match r with Done _ s _ => s | Blocked s _ => s end.

(** *** Primitive actions *)

Definition emit (e : Event) : M unit := fun s => Done tt s [e].

Definition log (l : Log) : M unit := emit (ELog l).

Definition Lock : M unit := emit ELock.
Definition Unlock : M unit := emit EUnlock.

(** [req.Reply(ok, payload)] *)
Definition Reply (ok : bool) (payload : list byte) : M unit :=
  emit (EReply ok payload).

(** [ln, ok := s.forwards[addr]] *)
Definition lookupForward (addr : string) : M (option Listener) := fun s =>
  Done (forwards s !! addr) s [].

(** [s.forwards[addr] = ln] *)
Definition storeForward (addr : string) (ln : Listener) : M unit := fun s =>
  Done tt {| forwards := <[addr := ln]> (forwards s);
             listening := listening s;
             checkers := checkers s;
             nextListener := nextListener s |} [EStore addr ln].

(** [delete(s.forwards, addr)] *)
Definition deleteForward (addr : string) : M unit := fun s =>
  Done tt {| forwards := delete addr (forwards s);
             listening := listening s;
             checkers := checkers s;
             nextListener := nextListener s |} [EDelete addr].

(** [ln.Close()]; the error of closing a closed listener is ignored. *)
Definition Close (ln : Listener) : M unit := fun s =>
  Done tt {| forwards := forwards s;
             listening := delete ln (listening s);
             checkers := checkers s;
             nextListener := nextListener s |} [EClose ln].

(** [net.Listen("tcp", addr)]; whether the bind succeeds is up to the
    operating system, [ok] is its answer. *)
Definition Listen (ok : bool) (addr : string) : M (option Listener) := fun s =>
  if ok then
    let ln := nextListener s in
    Done (Some ln) {| forwards := forwards s;
                      listening := <[ln := addr]> (listening s);
                      checkers := checkers s;
                      nextListener := S ln |} [EListen addr (Some ln)]
  else Done None s [EListen addr None].

(** [go handleTcpIpForwardSession(s.client, ln, laddr, lport)] *)
Definition goForwardSession (ln : Listener) (laddr : string) (lport : N)
    : M unit :=
  emit (EGoForwardSession ln laddr lport).

(** [go checkAliveFun(s, ln, addr)]. The goroutine first creates its
    ticker and logs that it starts; that line is not recorded. *)
Definition goCheckAlive (ln : Listener) (addr : string) : M unit := fun s =>
  Done tt {| forwards := forwards s;
             listening := listening s;
             checkers := checkers s ++ [(ln, addr)];
             nextListener := nextListener s |} [EGoCheckAlive ln addr].

(** The goroutine at position [j] returns. *)
Definition endChecker (j : nat) (ln : Listener) (addr : string) : M unit :=
  fun s =>
  Done tt {| forwards := forwards s;
             listening := listening s;
             checkers := delete j (checkers s);
             nextListener := nextListener s |} [EReturn ln addr].

(** The server after [ln.Close()] and the return of the goroutine at
    position [j]. *)
Definition afterStop (old : Listener) (j : nat) (s : Server) : Server :=
  {| forwards := forwards s;
     listening := delete old (listening s);
     checkers := delete j (checkers s);
     nextListener := nextListener s |}.

(** *** The keep-alive goroutine *)

(** What wakes the [select] of [checkAliveFun]: the ticker, with the
    outcome of the probe [s.client.SendRequest("checkalive@rospo", true,
    nil)] that follows, or a value on [s.checkAliveStop]. *)
Inductive Wake :=
| Tick (err : bool)
| Stop.

(** One round of the [for { select { ... } }] of [checkAliveFun]; [true]
    when the loop goes round again, [false] when the function returns. *)
Definition checkAliveFun (ln : Listener) (addr : string) (w : Wake) : M bool :=
  match w with
  | Tick err =>
      emit (EProbe err) ;;
      if err then
        log LogEndpointGone ;;
        Close ln ;;
        Lock ;;
        deleteForward addr ;;
        Unlock ;;
        ret false
      else ret true
  | Stop =>
      log LogStopKeepAlive ;;
      ret false
  end.

(** The goroutine at position [j] of [checkers] is woken by [w]. *)
Definition wake (j : nat) (w : Wake) : M unit := fun s =>
  match checkers s !! j with
  | None => Done tt s []
  | Some (ln, addr) =>
      (again <- checkAliveFun ln addr w ;
       if again : bool then ret tt else endChecker j ln addr) s
  end.

(** [s.checkAliveStop <- true]. The channel is unbuffered: the send
    completes when one of the goroutines selecting on it receives, and the
    Go scheduler chooses which ([pick]); with no such goroutine the sender
    stays blocked. All the receiver does after the rendezvous is log and
    return; these two events are recorded right after the send. *)
Definition sendStop (pick : nat) : M unit := fun s =>
  match checkers s with
  | [] => Blocked s []
  | _ :: _ =>
      let j := pick mod length (checkers s) in
      match checkers s !! j with
      | None => Blocked s []
      | Some (ln, addr) => (emit (EStop ln addr) ;; wake j Stop) s
      end
  end.

(** *** The request loop *)

(** What the environment decides while one request is served: whether
    [net.Listen] succeeds, and which selecting goroutine the scheduler
    pairs with a send on [s.checkAliveStop]. *)
Record Sched := {
  listen_ok : bool;
  stop_pick : nat
}.

(** [fmt.Sprintf("[%s]:%d", laddr, lport)] *)
Definition Sprintf_addr (laddr : string) (lport : N) : string :=
  "[" +:+ laddr +:+ "]:" +:+ pretty lport.

Section Requests.
Context `{Lib : SshLib}.

(** The case ["tcpip-forward"] of [handleRequests]. *)
Definition tcpipForward (o : Sched) (req : Request) : M unit :=
  match Unmarshal (Payload req) with
  | None =>
      log LogUnmarshal ;;
      Reply false []
  | Some (laddr, lport) =>
      let addr := Sprintf_addr laddr lport in
      Lock ;;
      old <- lookupForward addr ;
      match old with
      | Some ln =>
          log LogClosingOld ;;
          Close ln ;;
          sendStop (stop_pick o)
      | None => ret tt
      end ;;
      Unlock ;;
      r <- Listen (listen_ok o) addr ;
      match r with
      | None =>
          log (LogListenFailed addr) ;;
          Reply false []
      | Some ln =>
          log (LogListening addr) ;;
          Reply true (Marshal lport) ;;
          goForwardSession ln laddr lport ;;
          goCheckAlive ln addr ;;
          Lock ;;
          storeForward addr ln ;;
          Unlock
      end
  end.

(** The case ["cancel-tcpip-forward"] of [handleRequests]. *)
Definition cancelTcpipForward (req : Request) : M unit :=
  match Unmarshal (Payload req) with
  | None =>
      log LogUnmarshal ;;
      Reply false []
  | Some (laddr, lport) =>
      let addr := Sprintf_addr laddr lport in
      old <- lookupForward addr ;
      match old with
      | Some ln => Close ln
      | None => ret tt
      end
  end.

(** The body of [for req := range reqs { switch req.Type { ... } }]. *)
Definition handleRequest (o : Sched) (req : Request) : M unit :=
  if decide (Type_ req = "tcpip-forward") then tcpipForward o req
  else if decide (Type_ req = "cancel-tcpip-forward") then
    cancelTcpipForward req
  else if Contains (Type_ req) "keepalive" then Reply true []
  else log (LogOutOfBand req).

(** [sshServer.handleRequests] on the requests of a connection. *)
Fixpoint handleRequests (reqs : list (Sched * Request)) : M unit :=
  match reqs with
  | [] => ret tt
  | (o, req) :: reqs' => handleRequest o req ;; handleRequests reqs'
  end.

(** The server as a whole: the request loop and the keep-alive goroutines
    take turns. A turn is one request served, or one firing of the ticker
    of the goroutine at position [j]; inside a turn the only interaction
    between the two that is followed is the rendezvous on the stop
    channel. *)
Inductive Turn :=
| Incoming (o : Sched) (req : Request)
| Ticker (j : nat) (err : bool).

Definition turn (t : Turn) : M unit :=
  match t with
  | Incoming o req => handleRequest o req
  | Ticker j err => wake j (Tick err)
  end.

Fixpoint run (ts : list Turn) : M unit :=
  match ts with
  | [] => ret tt
  | t :: ts' => turn t ;; run ts'
  end.

End Requests.

(** The calls [req.Reply] of a trace, in order. *)
Definition replies (tr : list Event) : list (bool * list byte) :=
  omap (fun e => match e with EReply ok p => Some (ok, p) | _ => None end) tr.

(** ** Consistency of the server's run-time picture *)

(** Every listener the server knows of came out of [net.Listen] earlier;
    an open listener held by the registry under an address, or watched by
    a goroutine started for an address, is bound to that address; no two
    goroutines watch the same listener. *)
Record Coherent (s : Server) : Prop := {
  registry_below : forall addr ln,
    forwards s !! addr = Some ln -> ln < nextListener s;
  listening_below : forall ln a,
    listening s !! ln = Some a -> ln < nextListener s;
  checkers_below : forall ln addr,
    (ln, addr) ∈ checkers s -> ln < nextListener s;
  registry_bound : forall addr ln a,
    forwards s !! addr = Some ln -> listening s !! ln = Some a -> a = addr;
  checkers_bound : forall ln addr a,
    (ln, addr) ∈ checkers s -> listening s !! ln = Some a -> a = addr;
  checkers_nodup : NoDup (checkers s).*1
}.

(** The probes of all running goroutines fail one after the other, as
    they do once the client's transport is gone. *)
Definition transportDeath (s : Server) : list Turn :=
  replicate (length (checkers s)) (Ticker 0 true).

Section Outcomes.
Context `{Lib : SshLib}.

(** The ways one request can be served, with the result of each. *)
Inductive Served (o : Sched) (req : Request) (s : Server)
    : Result unit -> Prop :=
| served_bad_payload :
    Type_ req = "tcpip-forward" \/ Type_ req = "cancel-tcpip-forward" ->
    Unmarshal (Payload req) = None ->
    Served o req s (Done tt s [ELog LogUnmarshal; EReply false []])
| served_fresh_bound laddr lport :
    Type_ req = "tcpip-forward" ->
    Unmarshal (Payload req) = Some (laddr, lport) ->
    forwards s !! Sprintf_addr laddr lport = None ->
    listen_ok o = true ->
    Served o req s
      (Done tt {| forwards := <[Sprintf_addr laddr lport := nextListener s]>
                                (forwards s);
                  listening := <[nextListener s := Sprintf_addr laddr lport]>
                                 (listening s);
                  checkers := checkers s
                              ++ [(nextListener s, Sprintf_addr laddr lport)];
                  nextListener := S (nextListener s) |}
         [ELock; EUnlock;
          EListen (Sprintf_addr laddr lport) (Some (nextListener s));
          ELog (LogListening (Sprintf_addr laddr lport));
          EReply true (Marshal lport);
          EGoForwardSession (nextListener s) laddr lport;
          EGoCheckAlive (nextListener s) (Sprintf_addr laddr lport);
          ELock; EStore (Sprintf_addr laddr lport) (nextListener s);
          EUnlock])
| served_fresh_refused laddr lport :
    Type_ req = "tcpip-forward" ->
    Unmarshal (Payload req) = Some (laddr, lport) ->
    forwards s !! Sprintf_addr laddr lport = None ->
    listen_ok o = false ->
    Served o req s
      (Done tt s
         [ELock; EUnlock; EListen (Sprintf_addr laddr lport) None;
          ELog (LogListenFailed (Sprintf_addr laddr lport));
          EReply false []])
| served_blocked laddr lport old :
    Type_ req = "tcpip-forward" ->
    Unmarshal (Payload req) = Some (laddr, lport) ->
    forwards s !! Sprintf_addr laddr lport = Some old ->
    checkers s = [] ->
    Served o req s
      (Blocked {| forwards := forwards s;
                  listening := delete old (listening s);
                  checkers := [];
                  nextListener := nextListener s |}
         [ELock; ELog LogClosingOld; EClose old])
| served_replace_bound laddr lport old j ln' addr' :
    Type_ req = "tcpip-forward" ->
    Unmarshal (Payload req) = Some (laddr, lport) ->
    forwards s !! Sprintf_addr laddr lport = Some old ->
    checkers s !! j = Some (ln', addr') ->
    listen_ok o = true ->
    Served o req s
      (Done tt {| forwards := <[Sprintf_addr laddr lport := nextListener s]>
                                (forwards s);
                  listening := <[nextListener s := Sprintf_addr laddr lport]>
                                 (delete old (listening s));
                  checkers := delete j (checkers s)
                              ++ [(nextListener s, Sprintf_addr laddr lport)];
                  nextListener := S (nextListener s) |}
         [ELock; ELog LogClosingOld; EClose old; EStop ln' addr';
          ELog LogStopKeepAlive; EReturn ln' addr'; EUnlock;
          EListen (Sprintf_addr laddr lport) (Some (nextListener s));
          ELog (LogListening (Sprintf_addr laddr lport));
          EReply true (Marshal lport);
          EGoForwardSession (nextListener s) laddr lport;
          EGoCheckAlive (nextListener s) (Sprintf_addr laddr lport);
          ELock; EStore (Sprintf_addr laddr lport) (nextListener s);
          EUnlock])
| served_replace_refused laddr lport old j ln' addr' :
    Type_ req = "tcpip-forward" ->
    Unmarshal (Payload req) = Some (laddr, lport) ->
    forwards s !! Sprintf_addr laddr lport = Some old ->
    checkers s !! j = Some (ln', addr') ->
    listen_ok o = false ->
    Served o req s
      (Done tt (afterStop old j s)
         [ELock; ELog LogClosingOld; EClose old; EStop ln' addr';
          ELog LogStopKeepAlive; EReturn ln' addr'; EUnlock;
          EListen (Sprintf_addr laddr lport) None;
          ELog (LogListenFailed (Sprintf_addr laddr lport));
          EReply false []])
| served_cancel_bound laddr lport old :
    Type_ req = "cancel-tcpip-forward" ->
    Unmarshal (Payload req) = Some (laddr, lport) ->
    forwards s !! Sprintf_addr laddr lport = Some old ->
    Served o req s
      (Done tt {| forwards := forwards s;
                  listening := delete old (listening s);
                  checkers := checkers s;
                  nextListener := nextListener s |} [EClose old])
| served_cancel_unknown laddr lport :
    Type_ req = "cancel-tcpip-forward" ->
    Unmarshal (Payload req) = Some (laddr, lport) ->
    forwards s !! Sprintf_addr laddr lport = None ->
    Served o req s (Done tt s [])
| served_keepalive :
    Type_ req <> "tcpip-forward" ->
    Type_ req <> "cancel-tcpip-forward" ->
    Contains (Type_ req) "keepalive" = true ->
    Served o req s (Done tt s [EReply true []])
| served_out_of_band :
    Type_ req <> "tcpip-forward" ->
    Type_ req <> "cancel-tcpip-forward" ->
    Contains (Type_ req) "keepalive" = false ->
    Served o req s (Done tt s [ELog (LogOutOfBand req)]).

End Outcomes.

(** ** The channel dispatcher *)

(** [ssh.NewChannel] *)
Record NewChannel := {
  ChannelType : string;
  ExtraData : list byte
}.

(** [ssh.RejectionReason] *)
Inductive RejectionReason :=
| Prohibited
| ConnectionFailed
| UnknownChannelType
| ResourceShortage.

Inductive ChannelEvent :=
| GoChannelSession (c : NewChannel)
| GoChannelDirect (c : NewChannel)
| Reject (c : NewChannel) (reason : RejectionReason) (message : string).

(** The body of [for newChannel := range chans { switch t { ... } }];
    [fmt.Sprintf] with [%s] copies the string. *)
Definition handleChannel (newChannel : NewChannel) : ChannelEvent :=
  let t := ChannelType newChannel in
  if decide (t = "session") then GoChannelSession newChannel
  else if decide (t = "direct-tcpip") then GoChannelDirect newChannel
  else Reject newChannel UnknownChannelType ("unknown channel type: " +:+ t).

(** [sshServer.handleChannels] *)
Definition handleChannels (chans : list NewChannel) : list ChannelEvent :=
  map handleChannel chans.

(** ** An executable library, to run the model on concrete inputs

    The wire codec follows RFC 4251 as [ssh.Marshal] and [ssh.Unmarshal]
    implement it; [quote] is [strconv.Quote], which [%q] prints, on ASCII
    input. The key type and the key-file parser are stand-ins: a key is
    its wire blob, a key file holds one blob per line. *)

Module Reference.

Definition byteN (n : N) : byte := default x00 (Byte.of_N (n mod 256)).

(** A [uint32], big-endian on four bytes. *)
Definition marshalUint32 (n : N) : list byte :=
  [byteN (n / 16777216); byteN (n / 65536); byteN (n / 256); byteN n].

Definition parseUint32 (bs : list byte) : option (N * list byte) :=
  match bs with
  | b0 :: b1 :: b2 :: b3 :: rest =>
      Some ((Byte.to_N b0 * 16777216 + Byte.to_N b1 * 65536
             + Byte.to_N b2 * 256 + Byte.to_N b3)%N, rest)
  | _ => None
  end.

(** A [string]: its length as a [uint32], then its bytes. *)
Definition parseString (bs : list byte) : option (string * list byte) :=
  match parseUint32 bs with
  | None => None
  | Some (n, rest) =>
      if decide (length rest < N.to_nat n) then None
      else Some (string_of_list_byte (take (N.to_nat n) rest),
                 drop (N.to_nat n) rest)
  end.

(** [ssh.Unmarshal] into [struct { Addr string; Port uint32 }]: empty
    input and trailing bytes are errors. *)
Definition unmarshalForward (bs : list byte) : option (string * N) :=
  match bs with
  | [] => None
  | _ =>
      match parseString bs with
      | None => None
      | Some (addr, rest) =>
          match parseUint32 rest with
          | Some (port, []) => Some (addr, port)
          | _ => None
          end
      end
  end.

Definition marshalString (s : string) : list byte :=
  marshalUint32 (N.of_nat (String.length s)) ++ list_byte_of_string s.

(** The payload of a [tcpip-forward] request. *)
Definition marshalForward (addr : string) (port : N) : list byte :=
  marshalString addr ++ marshalUint32 port.

Definition hexDigit (n : N) : ascii :=
  default "0"%char (String.get (N.to_nat n) "0123456789abcdef").

(** One byte of [strconv.Quote]. *)
Definition quoteByte (c : ascii) : string :=
  let n := N_of_ascii c in
  if decide (c = dquote) then String "\" (String dquote "")
  else if decide (c = "\"%char) then "\\"
  else if decide (32 <= n < 127)%N then String c ""
  else match n with
       | 7 => "\a" | 8 => "\b" | 12 => "\f" | 10 => "\n"
       | 13 => "\r" | 9 => "\t" | 11 => "\v"
       | _ => String "\" (String "x" (String (hexDigit (n / 16))
                                         (String (hexDigit (n mod 16)) "")))
       end%N.

Fixpoint quoteBytes (s : string) : string :=
  match s with
  | EmptyString => ""
  | String c s' => quoteByte c +:+ quoteBytes s'
  end.

Definition quote (s : string) : string :=
  String dquote (quoteBytes s +:+ String dquote "").

(** The bytes up to the first newline, and the bytes after it. *)
Fixpoint splitLine (bs : list byte) : list byte * list byte :=
  match bs with
  | [] => ([], [])
  | b :: bs' =>
      if Byte.eqb b x0a then ([], bs')
      else (b :: (splitLine bs').1, (splitLine bs').2)
  end.

Definition parseKeyLine (bs : list byte) : option (list byte * list byte) :=
  match splitLine bs with
  | ([], _) => None
  | (k, rest) => Some (k, rest)
  end.

Lemma splitLine_length bs :
  length (splitLine bs).1 + length (splitLine bs).2 <= length bs.
Proof.
  induction bs as [|b bs IH]; simpl; [lia|].
  destruct (Byte.eqb b x0a); simpl; lia.
Qed.

Lemma parseKeyLine_rest bs k rest :
  parseKeyLine bs = Some (k, rest) -> length rest < length bs.
Proof.
  unfold parseKeyLine. pose proof (splitLine_length bs) as Hlen.
  destruct (splitLine bs) as [[|b l] r]; [discriminate|].
  intros [= <- <-]. simpl in Hlen. lia.
Qed.

Definition lib : SshLib := {|
  PublicKey := list byte;
  key_Type := fun _ => "ssh-ed25519";
  key_Marshal := fun k => k;
  FingerprintSHA256 := fun k => "SHA256:" +:+ string_of_list_byte k;
  ParseAuthorizedKey := parseKeyLine;
  ParseAuthorizedKey_rest := parseKeyLine_rest;
  Unmarshal := unmarshalForward;
  Marshal := marshalUint32;
  Quote := quote;
  ExpandUserHome := fun p => Some p
|}.

End Reference.

(** ** Concrete inputs *)

Module Example.

Definition keyA : list byte := list_byte_of_string "AAAAC3NzaC1lZDI1NTE5-A".
Definition keyB : list byte := list_byte_of_string "AAAAC3NzaC1lZDI1NTE5-B".
Definition keyC : list byte := list_byte_of_string "AAAAC3NzaC1lZDI1NTE5-C".

(** A file system whose only file, [/etc/rospo/authorized_keys], holds
    [keyA] and [keyB]. *)
Definition twoKeys : FileSystem := fun path =>
  if decide (path = "/etc/rospo/authorized_keys")
  then Some (keyA ++ [x0a] ++ keyB ++ [x0a])
  else None.

(** A file system without that file. *)
Definition noFile : FileSystem := fun _ => None.

Definition bob : ConnMetadata :=
  {| User := "bob"; RemoteAddr := "192.0.2.7:50122" |}.

(** [tcpip-forward] and [cancel-tcpip-forward] requests as a client sends
    them. *)
Definition forward (addr : string) (port : N) : Request :=
  {| Type_ := "tcpip-forward"; WantReply := true;
     Payload := Reference.marshalForward addr port |}.

Definition cancel (addr : string) (port : N) : Request :=
  {| Type_ := "cancel-tcpip-forward"; WantReply := true;
     Payload := Reference.marshalForward addr port |}.

(** [net.Listen] succeeds; the scheduler hands a stop signal to the
    selecting goroutine number [pick]. *)
Definition bindOk (pick : nat) : Sched :=
  {| listen_ok := true; stop_pick := pick |}.

Definition bindFails (pick : nat) : Sched :=
  {| listen_ok := false; stop_pick := pick |}.

(** The server once [tcpip-forward("", 9000)] has been served: listener 0
    is bound, registered, and watched by one keep-alive goroutine. *)
Definition oneForward : Server :=
  {| forwards := {[ "[]:9000" := 0 ]};
     listening := {[ 0 := "[]:9000" ]};
     checkers := [(0, "[]:9000")];
     nextListener := 1 |}.

(** Two forwards are set up, then the first is requested again; the
    scheduler pairs the send on the stop channel with the goroutine of the
    second. *)
Definition crossTalk : list Turn :=
  [Incoming (bindOk 0) (forward "" 9000);
   Incoming (bindOk 0) (forward "" 9001);
   Incoming (bindOk 1) (forward "" 9000)].

(** After that the transport dies: the probe of each goroutine still
    running fails. *)
Definition crossTalkThenDeath : list Turn :=
  crossTalk ++ [Ticker 0 true; Ticker 0 true].

End Example.

(** ** Start-up *)

(** [conf.SshDConf], as [NewSshServer] and the [tun reverse] command use
    it. *)
Record SshDConf := {
  Key : string;
  AuthorizedKeysFile : string;
  Port : string
}.

(** What start-up needs on top of [SshLib]: [ssh.ParsePrivateKey],
    [utils.GeneratePrivateKey] (the file system it leaves behind), and the
    string [utils.ExpandUserHome] returns, which [NewSshServer] uses without
    looking at the error. *)
Class HostKeyLib `{Lib : SshLib} := {
  Signer : Type;
  ParsePrivateKey : list byte -> option Signer;
  GeneratePrivateKey : string -> FileSystem -> FileSystem;
  ExpandUserHome_path : string -> string;
  ExpandUserHome_path_ok :
    forall p q, ExpandUserHome p = Some q -> ExpandUserHome_path p = q
}.

(** How a start-up step ends: with a value, with [log.Fatal] (exit status
    1), or with [panic]. *)
Inductive Boot (A : Type) : Type :=
| Booted (a : A)
| Fatal
| Panic.
Arguments Booted {A} a.
Arguments Fatal {A}.
Arguments Panic {A}.

Inductive BootEvent :=
| LogGenerating
| Generate (keyPath : string).

Section StartUp.
Context `{HostLib : HostKeyLib}.

(** The [sshServer] struct: the parsed host key, the configuration it
    keeps, and the registry side modelled by [Server]. *)
Record sshServer := {
  hostPrivateKey : Signer;
  authorizedKeyFile : string;
  tcpPort : string;
  registry : Server
}.

(** [NewSshServer]: what is logged and generated, the file system
    afterwards, and the outcome. *)
Definition NewSshServer (conf : SshDConf) (fs : FileSystem)
    : list BootEvent * FileSystem * Boot sshServer :=
  let keyPath := ExpandUserHome_path (Key conf) in
  let '(events, fs1, read) :=
    match fs keyPath with
    | Some hostPrivateKey => ([], fs, Some hostPrivateKey)
    | None =>
        let fs1 := GeneratePrivateKey keyPath fs in
        ([LogGenerating; Generate keyPath], fs1, fs1 keyPath)
    end in
  (events, fs1,
   match read with
   | None => Panic
   | Some hostPrivateKey =>
       match ParsePrivateKey hostPrivateKey with
       | None => Panic
       | Some hostPrivateKeySigner =>
           match loadAuthorizedKeys (AuthorizedKeysFile conf) fs1 with
           | Exit _ => Fatal
           | Return _ =>
               Booted {| hostPrivateKey := hostPrivateKeySigner;
                         authorizedKeyFile := AuthorizedKeysFile conf;
                         tcpPort := Port conf;
                         registry := newServer |}
           end
       end
   end).

End StartUp.

(** ** The accept loop *)

(** The identity of an accepted TCP connection. *)
Definition Conn : Type := nat.

(** What happens next in [Start] once the main socket is bound:
    [socket.Accept()] returns a connection or an error, or the
    [ssh.NewServerConn] of the goroutine at position [i] among those still
    in their handshake returns, with the [pubkey-fp] extension of the
    permissions or with an error. *)
Inductive StartTurn :=
| Accept (r : option Conn)
| Handshake (i : nat) (r : option string).

(** [s.client], the connections whose goroutine is still in its handshake,
    and the connections whose request and channel loops have been
    started, in start order. *)
Record Daemon := {
  client : option Conn;
  pending : list Conn;
  serving : list Conn
}.

Inductive StartEvent :=
| SListen (addr : string) (ok : bool)
| SLogListening (port : string)
| SGoHandshake (c : Conn)
| SLogHandshakeError (c : Conn)
| SLogLoggedIn (fingerprint : string)
| SLogConnection (c : Conn)
| SGoHandleRequests (c : Conn)
| SGoHandleChannels (c : Conn).

(** One turn of the accept loop or of a connection goroutine. *)
Definition startTurn (t : StartTurn) (d : Daemon)
    : list StartEvent * Boot Daemon :=
  match t with
  | Accept None => ([], Panic)
  | Accept (Some conn) =>
      ([SGoHandshake conn],
       Booted {| client := client d;
                 pending := pending d ++ [conn];
                 serving := serving d |})
  | Handshake i r =>
      match pending d !! i with
      | None => ([], Booted d)
      | Some conn =>
          match r with
          | None =>
              ([SLogHandshakeError conn],
               Booted {| client := client d;
                         pending := delete i (pending d);
                         serving := serving d |})
          | Some fp =>
              ([SLogLoggedIn fp; SLogConnection conn;
                SGoHandleRequests conn; SGoHandleChannels conn],
               Booted {| client := Some conn;
                         pending := delete i (pending d);
                         serving := serving d ++ [conn] |})
          end
      end
  end.

(** The [for { ... }] of [Start] over the turns that happen. *)
Fixpoint acceptLoop (ts : list StartTurn) (d : Daemon)
    : list StartEvent * Boot Daemon :=
  match ts with
  | [] => ([], Booted d)
  | t :: ts' =>
      match startTurn t d with
      | (ev, Booted d') =>
          (ev ++ (acceptLoop ts' d').1, (acceptLoop ts' d').2)
      | (ev, stop) => (ev, stop)
      end
  end.

(** [sshServer.Start] for the configured port; [listenOk] is the answer
    of the operating system to [net.Listen("tcp", ":" + port)]. *)
Definition Start (tcpPort : string) (listenOk : bool) (ts : list StartTurn)
    : list StartEvent * Boot Daemon :=
  if decide (tcpPort = "") then ([], Fatal)
  else if listenOk then
    (SListen (":" +:+ tcpPort) true :: SLogListening tcpPort
       :: (acceptLoop ts {| client := None; pending := [];
                            serving := [] |}).1,
     (acceptLoop ts {| client := None; pending := []; serving := [] |}).2)
  else ([SListen (":" +:+ tcpPort) false], Panic).

(** ** A helper of the tests *)

(** [strings.Split(s, sep)] for a separator of one character. *)
Fixpoint Split (s : string) (sep : ascii) : list string :=
  match s with
  | EmptyString => [""]
  | String c s' =>
      if Ascii.eqb c sep then "" :: Split s' sep
      else match Split s' sep with
           | [] => [String c ""]
           | part :: parts => String c part :: parts
           end
  end.

(** [getPort]: [parts[1]] of the address split at the colons; indexing
    past the end panics, which is [None] here. *)
Definition getPort (addr : string) : option string :=
  Split addr ":" !! 1.

(** ** An executable host-key library *)

Module ReferenceHost.

(** Stand-ins: a private key file parses when it is not empty, and
    generating a key writes a fixed blob to the path. *)
Definition generated : list byte := list_byte_of_string "generated-key".

Definition generate (keyPath : string) (fs : FileSystem) : FileSystem :=
  fun p => if decide (p = keyPath) then Some generated else fs p.

Lemma expand_ok p q :
  ExpandUserHome (SshLib := Reference.lib) p = Some q -> p = q.
Proof. now intros [= ->]. Qed.

Definition lib : @HostKeyLib Reference.lib := {|
  Signer := list byte;
  ParsePrivateKey := fun bs => match bs with [] => None | _ => Some bs end;
  GeneratePrivateKey := generate;
  ExpandUserHome_path := fun p => p;
  ExpandUserHome_path_ok := expand_ok
|}.

End ReferenceHost.

(** * Properties *)

(** ** Substrings *)

Lemma prefix_app (p s : string) :
  String.prefix p s = true <-> exists post, s = p +:+ post.
Proof.
  revert s. induction p as [|c p IH]; intros [|d s]; simpl.
  - split; [intros _; exists ""; reflexivity | reflexivity].
  - split; [intros _; exists (String d s); reflexivity | reflexivity].
  - split; [discriminate | intros [post Hpost]; discriminate].
  - destruct (Ascii.ascii_dec c d) as [->|Hne].
    + rewrite IH. split; intros [post Hpost]; exists post.
      * simpl. now rewrite Hpost.
      * simpl in Hpost. now injection Hpost.
    + split; [discriminate|]. intros [post Hpost].
      simpl in Hpost. injection Hpost as Hc _. congruence.
Qed.

(** [Contains] decides the substring relation. *)
Lemma Contains_spec (s sub : string) :
  Contains s sub = true <-> exists pre post, s = pre +:+ sub +:+ post.
Proof.
  induction s as [|c s IH]; cbn [Contains].
  - rewrite orb_false_r, prefix_app. split.
    + intros [post Hpost]. exists "", post. exact Hpost.
    + intros [[|d pre] [post Hpost]]; [exists post; exact Hpost|discriminate].
  - rewrite orb_true_iff, prefix_app, IH. split.
    + intros [[post Hpost]|(pre & post & Hpost)].
      * exists "", post. exact Hpost.
      * exists (String c pre), post. simpl. now rewrite Hpost.
    + intros ([|d pre] & post & Hpost).
      * left. exists post. exact Hpost.
      * right. simpl in Hpost. injection Hpost as _ Hs. now exists pre, post.
Qed.

(** ** The reference codec *)

Lemma byteN_to_N n : Byte.to_N (Reference.byteN n) = (n mod 256)%N.
Proof.
  unfold Reference.byteN.
  destruct (Byte.of_N (n mod 256)) as [b|] eqn:Hb; simpl.
  - now apply Byte.to_of_N.
  - apply Byte.of_N_None_iff in Hb.
    pose proof (N.mod_upper_bound n 256). lia.
Qed.

(** A [uint32] survives the wire. *)
Lemma parseUint32_marshalUint32 n rest :
  (n < 4294967296)%N ->
  Reference.parseUint32 (Reference.marshalUint32 n ++ rest) = Some (n, rest).
Proof.
  intros Hn. unfold Reference.marshalUint32, Reference.parseUint32.
  cbn [app]. rewrite !byteN_to_N. do 2 f_equal.
  zify; Z.to_euclidean_division_equations; lia.
Qed.

Lemma length_list_byte_of_string s :
  length (list_byte_of_string s) = String.length s.
Proof.
  unfold list_byte_of_string. rewrite length_map.
  induction s as [|c s IH]; simpl; congruence.
Qed.

(** The payload a client builds for [(addr, port)] unmarshals to
    [(addr, port)]. *)
Lemma unmarshalForward_marshalForward addr port :
  (N.of_nat (String.length addr) < 4294967296)%N ->
  (port < 4294967296)%N ->
  Reference.unmarshalForward (Reference.marshalForward addr port)
  = Some (addr, port).
Proof.
  intros Ha Hp.
  unfold Reference.unmarshalForward, Reference.marshalForward,
    Reference.marshalString.
  rewrite <- app_assoc. unfold Reference.parseString.
  rewrite (parseUint32_marshalUint32 _ _ Ha).
  change (Reference.marshalUint32 (N.of_nat (String.length addr)))
    with ([Reference.byteN (N.of_nat (String.length addr) / 16777216);
           Reference.byteN (N.of_nat (String.length addr) / 65536);
           Reference.byteN (N.of_nat (String.length addr) / 256);
           Reference.byteN (N.of_nat (String.length addr))]).
  cbn [app]. rewrite Nat2N.id.
  rewrite decide_False
    by (rewrite length_app, length_list_byte_of_string; lia).
  rewrite take_app_length', drop_app_length'
    by (symmetry; apply length_list_byte_of_string).
  rewrite string_of_list_byte_of_string.
  pose proof (parseUint32_marshalUint32 port [] Hp) as Hport.
  rewrite app_nil_r in Hport. now rewrite Hport.
Qed.

(** ** The authorized-keys loader and the public-key callback *)

Section AuthProperties.
Context `{Lib : SshLib}.

Lemma parseAll_exit bs m : ParseFails bs -> parseAll bs m = Exit 1.
Proof.
  intros Hf. revert m. induction Hf as [b bs Hp|b bs k rest Hp _ IH]; intros m.
  - simp parseAll. generalize (inspect (ParseAuthorizedKey (b :: bs))).
    intros [[[k r]|] He]; [congruence|]. now simp parseAll.
  - simp parseAll. generalize (inspect (ParseAuthorizedKey (b :: bs))).
    intros [[[k' r']|] He]; [|congruence].
    simp parseAll. rewrite Hp in He. injection He as <- <-. apply IH.
Qed.

(** Only [true] is ever stored in the map. *)
Lemma parseAll_true bs m keys :
  map_Forall (fun _ v => v = true) m ->
  parseAll bs m = Return keys ->
  map_Forall (fun _ v => v = true) keys.
Proof.
  funelim (parseAll bs m); intros Hm Hr.
  - now injection Hr as <-.
  - match goal with IH : forall keys, _ -> _ -> _ |- _ =>
      apply IH; [|exact Hr] end.
    now apply map_Forall_insert_2.
  - discriminate.
Qed.

Lemma loadAuthorizedKeys_true file fs keys :
  loadAuthorizedKeys file fs = Return keys ->
  map_Forall (fun _ v => v = true) keys.
Proof.
  unfold loadAuthorizedKeys.
  destruct (ExpandUserHome file) as [path|]; [|discriminate].
  destruct (fs path) as [bs|]; [|discriminate].
  apply parseAll_true, map_Forall_empty.
Qed.

Lemma index_bool_dom (keys : gmap string bool) k :
  map_Forall (fun _ v => v = true) keys ->
  index_bool keys k = true <-> k ∈ dom keys.
Proof.
  intros Hall. unfold index_bool. rewrite elem_of_dom.
  destruct (keys !! k) as [v|] eqn:Hk; simpl.
  - rewrite (Hall _ _ Hk). split; [eauto|reflexivity].
  - split; [discriminate|intros [v Hv]; discriminate].
Qed.

(** C1, as amended: when the authorized-keys file loads, the public-key
    callback succeeds if and only if the marshaled candidate key is a member
    of the set just loaded, and the permissions it then returns carry exactly
    the extension [pubkey-fp] with the SHA-256 fingerprint of the key; it
    returns an error if and only if the key is not a member, and the error
    is [unknown public key for ] followed by the user name as the [%q] verb
    prints it. *)
Theorem keyAuth_spec file fs conn pubKey :
  (forall perms,
     (keyAuth file fs conn pubKey).2 = Return (inl perms) <->
     (exists keys, loadAuthorizedKeys file fs = Return keys /\
                   keyString pubKey ∈ dom keys) /\
     perms = {| Extensions := {[ "pubkey-fp" := FingerprintSHA256 pubKey ]} |})
  /\
  (forall err,
     (keyAuth file fs conn pubKey).2 = Return (inr err) <->
     (exists keys, loadAuthorizedKeys file fs = Return keys /\
                   keyString pubKey ∉ dom keys) /\
     err = "unknown public key for " +:+ Quote (User conn)).
Proof.
  unfold keyAuth. cbn [snd].
  destruct (loadAuthorizedKeys file fs) as [keys|st] eqn:Hload.
  - pose proof (index_bool_dom keys (keyString pubKey)
                  (loadAuthorizedKeys_true _ _ _ Hload)) as Hdom.
    destruct (index_bool keys (keyString pubKey)) eqn:Hidx.
    + assert (Hin : keyString pubKey ∈ dom keys) by now apply Hdom.
      split; intros x; split.
      * intros [= <-]. split; [exists keys; now split | reflexivity].
      * intros [_ ->]. reflexivity.
      * discriminate.
      * intros [(keys' & [= <-] & Hnot) _]. contradiction.
    + assert (Hnot : keyString pubKey ∉ dom keys).
      { intros Hin. apply Hdom in Hin. discriminate. }
      split; intros x; split.
      * discriminate.
      * intros [(keys' & [= <-] & Hin) _]. contradiction.
      * intros [= <-]. split; [exists keys; now split | reflexivity].
      * intros [_ ->]. reflexivity.
  - split; intros x; split; try discriminate;
      intros [(keys & Hk & _) _]; discriminate.
Qed.

(** C7, as amended: when the authorized-keys file cannot be read or cannot
    be parsed during an authentication attempt, the callback does not
    return: the loader ends the process with [log.Fatal], exit status 1,
    exactly as it does at start-up. *)
Theorem keyAuth_load_failure_exits file fs conn pubKey path :
  ExpandUserHome file = Some path ->
  fs path = None \/ (exists bs, fs path = Some bs /\ ParseFails bs) ->
  (keyAuth file fs conn pubKey).2 = Exit 1.
Proof.
  intros Hpath Hfail. unfold keyAuth, loadAuthorizedKeys. cbn [snd].
  rewrite Hpath. destruct Hfail as [->|(bs & -> & Hbs)]; [reflexivity|].
  now rewrite (parseAll_exit bs ∅ Hbs).
Qed.

End AuthProperties.

(** The file is loaded anew at each attempt: the member [keyB] is let in. *)
Example keyAuth_accepts_member :
  (keyAuth (Lib := Reference.lib) "/etc/rospo/authorized_keys"
     Example.twoKeys Example.bob Example.keyB).2
  = Return (inl {| Extensions :=
                     {[ "pubkey-fp" :=
                          "SHA256:" +:+ string_of_list_byte Example.keyB ]} |}).
Proof. vm_compute. reflexivity. Qed.

(** C1 as stated does not hold: for user [bob] the error text has the name
    in double quotes, it is not [unknown public key for bob]. *)
Lemma keyAuth_error_quotes_user :
  (keyAuth (Lib := Reference.lib) "/etc/rospo/authorized_keys"
     Example.twoKeys Example.bob Example.keyC).2
  = Return (inr ("unknown public key for "
                 +:+ String dquote ("bob" +:+ String dquote "")))
  /\ (keyAuth (Lib := Reference.lib) "/etc/rospo/authorized_keys"
        Example.twoKeys Example.bob Example.keyC).2
     <> Return (inr ("unknown public key for " +:+ User Example.bob)).
Proof. split; [vm_compute; reflexivity | vm_compute; intros [=]]. Qed.

(** C7 as stated does not hold: with the file missing at the time of an
    attempt the callback returns no error, the process exits. *)
Lemma keyAuth_missing_file_exits :
  Example.noFile "/etc/rospo/authorized_keys" = None
  /\ (keyAuth (Lib := Reference.lib) "/etc/rospo/authorized_keys"
        Example.noFile Example.bob Example.keyA).2 = Exit 1
  /\ ~ (exists err,
          (keyAuth (Lib := Reference.lib) "/etc/rospo/authorized_keys"
             Example.noFile Example.bob Example.keyA).2 = Return (inr err)).
Proof.
  split; [reflexivity|]. split; [reflexivity|]. intros [err Herr].
  vm_compute in Herr. discriminate.
Qed.

Lemma keyAuth_load_failure_exits_witness :
  ExpandUserHome (SshLib := Reference.lib) "/etc/rospo/authorized_keys"
  = Some "/etc/rospo/authorized_keys"
  /\ Example.noFile "/etc/rospo/authorized_keys" = None
  /\ (keyAuth (Lib := Reference.lib) "/etc/rospo/authorized_keys"
        Example.noFile Example.bob Example.keyA).2 = Exit 1.
Proof.
  split; [reflexivity|]. split; [reflexivity|].
  apply (keyAuth_load_failure_exits (Lib := Reference.lib)
           "/etc/rospo/authorized_keys" Example.noFile Example.bob
           Example.keyA "/etc/rospo/authorized_keys");
    [reflexivity | left; reflexivity].
Defined.

(** A file with an unparsable tail fails the same way. *)
Example keyAuth_bad_file_exits :
  (keyAuth (Lib := Reference.lib) "/k"
     (fun _ => Some (Example.keyA ++ [x0a; x0a]))
     Example.bob Example.keyA).2 = Exit 1.
Proof. vm_compute. reflexivity. Qed.

(** ** The channel dispatcher *)

(** C6: every channel-open request whose type is neither [session] nor
    [direct-tcpip] is rejected with reason [UnknownChannelType] and the
    message [unknown channel type: ] followed by the requested type. *)
Theorem unknown_channel_rejected (chans : list NewChannel) i newChannel :
  chans !! i = Some newChannel ->
  ChannelType newChannel <> "session" ->
  ChannelType newChannel <> "direct-tcpip" ->
  handleChannels chans !! i
  = Some (Reject newChannel UnknownChannelType
            ("unknown channel type: " +:+ ChannelType newChannel)).
Proof.
  intros Hi Hs Hd. unfold handleChannels.
  change (map handleChannel chans) with (handleChannel <$> chans).
  rewrite list_lookup_fmap, Hi. simpl. unfold handleChannel.
  rewrite decide_False by exact Hs. rewrite decide_False by exact Hd.
  reflexivity.
Qed.

Lemma unknown_channel_rejected_witness :
  handleChannels [ {| ChannelType := "session"; ExtraData := [] |};
                   {| ChannelType := "x11"; ExtraData := [] |} ] !! 1
  = Some (Reject {| ChannelType := "x11"; ExtraData := [] |}
            UnknownChannelType "unknown channel type: x11").
Proof.
  apply (unknown_channel_rejected
           [ {| ChannelType := "session"; ExtraData := [] |};
             {| ChannelType := "x11"; ExtraData := [] |} ] 1
           {| ChannelType := "x11"; ExtraData := [] |});
    [reflexivity | discriminate | discriminate].
Defined.

(** ** The request loop *)

(** Unfold one layer of the monad and its primitive actions. *)
Ltac go_run :=
  cbv [bind emit log Reply Lock Unlock lookupForward storeForward
       deleteForward Close Listen goForwardSession goCheckAlive endChecker
       ret wake checkAliveFun];
  cbn [app].

Section RequestProperties.
Context `{Lib : SshLib}.

(** A send on the stop channel completes as soon as some goroutine is
    selecting on it; that goroutine logs and returns, touching neither the
    registry nor any listener. *)
Lemma sendStop_done pick s :
  checkers s <> [] ->
  exists j ln addr,
    checkers s !! j = Some (ln, addr) /\
    sendStop pick s
    = Done tt {| forwards := forwards s;
                 listening := listening s;
                 checkers := delete j (checkers s);
                 nextListener := nextListener s |}
        [EStop ln addr; ELog LogStopKeepAlive; EReturn ln addr].
Proof.
  intros Hne. unfold sendStop.
  destruct (checkers s) as [|c cs] eqn:Hcs; [contradiction|].
  set (j := pick mod length (c :: cs)).
  assert (Hj : j < length (c :: cs)).
  { apply Nat.mod_upper_bound. simpl. lia. }
  destruct (lookup_lt_is_Some_2 _ _ Hj) as [[ln addr] Hlk].
  exists j, ln, addr. split; [exact Hlk|]. rewrite Hlk.
  go_run. rewrite Hcs, Hlk. reflexivity.
Qed.

(** With nobody selecting, the sender never gets past the send. *)
Lemma sendStop_blocked pick s :
  checkers s = [] -> sendStop pick s = Blocked s [].
Proof. intros Hcs. unfold sendStop. now rewrite Hcs. Qed.

(** [tcpip-forward] for an address that is not in the registry. *)
Lemma tcpipForward_fresh o req s laddr lport :
  Unmarshal (Payload req) = Some (laddr, lport) ->
  forwards s !! Sprintf_addr laddr lport = None ->
  tcpipForward o req s
  = let addr := Sprintf_addr laddr lport in
    if listen_ok o then
      let ln := nextListener s in
      Done tt {| forwards := <[addr := ln]> (forwards s);
                 listening := <[ln := addr]> (listening s);
                 checkers := checkers s ++ [(ln, addr)];
                 nextListener := S ln |}
        [ELock; EUnlock; EListen addr (Some ln); ELog (LogListening addr);
         EReply true (Marshal lport); EGoForwardSession ln laddr lport;
         EGoCheckAlive ln addr; ELock; EStore addr ln; EUnlock]
    else
      Done tt s
        [ELock; EUnlock; EListen addr None; ELog (LogListenFailed addr);
         EReply false []].
Proof.
  intros Hu Hf. unfold tcpipForward. rewrite Hu. go_run. rewrite Hf.
  destruct (listen_ok o); go_run; reflexivity.
Qed.

(** [tcpip-forward] for an address that is in the registry, with some
    keep-alive goroutine selecting: the old listener is closed and the stop
    signal handed over before [net.Listen] is called. *)
Lemma tcpipForward_replace o req s laddr lport old :
  Unmarshal (Payload req) = Some (laddr, lport) ->
  forwards s !! Sprintf_addr laddr lport = Some old ->
  checkers s <> [] ->
  exists j ln' addr',
    checkers s !! j = Some (ln', addr') /\
    tcpipForward o req s
    = let addr := Sprintf_addr laddr lport in
      if listen_ok o then
        let ln := nextListener s in
        Done tt {| forwards := <[addr := ln]> (forwards s);
                   listening := <[ln := addr]> (delete old (listening s));
                   checkers := delete j (checkers s) ++ [(ln, addr)];
                   nextListener := S ln |}
          [ELock; ELog LogClosingOld; EClose old; EStop ln' addr';
           ELog LogStopKeepAlive; EReturn ln' addr'; EUnlock;
           EListen addr (Some ln); ELog (LogListening addr);
           EReply true (Marshal lport); EGoForwardSession ln laddr lport;
           EGoCheckAlive ln addr; ELock; EStore addr ln; EUnlock]
      else
        Done tt (afterStop old j s)
          [ELock; ELog LogClosingOld; EClose old; EStop ln' addr';
           ELog LogStopKeepAlive; EReturn ln' addr'; EUnlock;
           EListen addr None; ELog (LogListenFailed addr); EReply false []].
Proof.
  intros Hu Hf Hne.
  destruct (sendStop_done (stop_pick o)
              {| forwards := forwards s;
                 listening := delete old (listening s);
                 checkers := checkers s;
                 nextListener := nextListener s |} Hne)
    as (j & ln' & addr' & Hj & Hsend).
  exists j, ln', addr'. split; [exact Hj|].
  unfold tcpipForward. rewrite Hu. go_run. rewrite Hf. go_run.
  rewrite Hsend. cbn [forwards listening checkers nextListener].
  destruct (listen_ok o); go_run; reflexivity.
Qed.

(** With the address in the registry and no goroutine selecting, the
    handler stays blocked on the send, holding the lock; nothing is bound
    and nothing is replied. *)
Lemma tcpipForward_blocked o req s laddr lport old :
  Unmarshal (Payload req) = Some (laddr, lport) ->
  forwards s !! Sprintf_addr laddr lport = Some old ->
  checkers s = [] ->
  tcpipForward o req s
  = Blocked {| forwards := forwards s;
               listening := delete old (listening s);
               checkers := [];
               nextListener := nextListener s |}
      [ELock; ELog LogClosingOld; EClose old].
Proof.
  intros Hu Hf Hcs. unfold tcpipForward. rewrite Hu. go_run. rewrite Hf.
  go_run. rewrite sendStop_blocked by exact Hcs. now rewrite Hcs.
Qed.

Lemma handleRequest_forward o req :
  Type_ req = "tcpip-forward" -> handleRequest o req = tcpipForward o req.
Proof. intros Ht. unfold handleRequest. now rewrite decide_True. Qed.

Lemma handleRequest_cancel o req :
  Type_ req = "cancel-tcpip-forward" ->
  handleRequest o req = cancelTcpipForward req.
Proof.
  intros Ht. unfold handleRequest.
  rewrite decide_False by (rewrite Ht; discriminate).
  now rewrite decide_True.
Qed.

(** The loop goes on with the next request after a finished one. *)
Lemma handleRequests_cons o req reqs s s' tr :
  handleRequest o req s = Done tt s' tr ->
  trace (handleRequests ((o, req) :: reqs) s)
  = tr ++ trace (handleRequests reqs s').
Proof.
  intros Hd. cbn [handleRequests]. unfold bind. rewrite Hd.
  now destruct (handleRequests reqs s').
Qed.

(** C2: for a well-formed [tcpip-forward] request that gets as far as
    [net.Listen], a failed bind is answered with [false] and an empty
    payload, a successful bind with [true] and the marshaled port of the
    request, whatever its value (0 included); it is the only reply, and the
    loop goes on with the next request. *)
Theorem forward_reply o req reqs s laddr lport :
  Type_ req = "tcpip-forward" ->
  Unmarshal (Payload req) = Some (laddr, lport) ->
  forwards s !! Sprintf_addr laddr lport = None \/ checkers s <> [] ->
  exists s' tr,
    handleRequest o req s = Done tt s' tr /\
    EListen (Sprintf_addr laddr lport)
      (if listen_ok o then Some (nextListener s) else None) ∈ tr /\
    replies tr = [if listen_ok o then (true, Marshal lport) else (false, [])] /\
    trace (handleRequests ((o, req) :: reqs) s)
    = tr ++ trace (handleRequests reqs s').
Proof.
  intros Ht Hu Hready.
  assert (Hres : exists s' tr,
             handleRequest o req s = Done tt s' tr /\
             EListen (Sprintf_addr laddr lport)
               (if listen_ok o then Some (nextListener s) else None) ∈ tr /\
             replies tr
             = [if listen_ok o then (true, Marshal lport) else (false, [])]).
  { rewrite handleRequest_forward by exact Ht.
    destruct (forwards s !! Sprintf_addr laddr lport) as [old|] eqn:Hf.
    - destruct Hready as [Hnone|Hne]; [discriminate|].
      destruct (tcpipForward_replace o req s laddr lport old Hu Hf Hne)
        as (j & ln' & addr' & _ & ->).
      cbv zeta. destruct (listen_ok o); eexists _, _;
        (split; [reflexivity|]); (split; [|reflexivity]);
        rewrite !elem_of_cons; tauto.
    - rewrite (tcpipForward_fresh o req s laddr lport Hu Hf).
      cbv zeta. destruct (listen_ok o); eexists _, _;
        (split; [reflexivity|]); (split; [|reflexivity]);
        rewrite !elem_of_cons; tauto. }
  destruct Hres as (s' & tr & Hd & Hl & Hr).
  exists s', tr. repeat split; try assumption.
  now apply handleRequests_cons.
Qed.

(** C9: a [tcpip-forward] or [cancel-tcpip-forward] request whose payload
    does not unmarshal is answered with [false]; the server is left as it
    was (registry, listeners, goroutines), and nothing but the log line and
    the reply happens. *)
Theorem unmarshal_failure_no_effect o req s :
  Type_ req = "tcpip-forward" \/ Type_ req = "cancel-tcpip-forward" ->
  Unmarshal (Payload req) = None ->
  handleRequest o req s = Done tt s [ELog LogUnmarshal; EReply false []].
Proof.
  intros [Ht|Ht] Hu.
  - rewrite handleRequest_forward by exact Ht.
    unfold tcpipForward. rewrite Hu. reflexivity.
  - rewrite handleRequest_cancel by exact Ht.
    unfold cancelTcpipForward. rewrite Hu. reflexivity.
Qed.

(** C5: a request that is neither [tcpip-forward] nor
    [cancel-tcpip-forward] is answered with [true] and an empty payload when
    its type contains [keepalive]; otherwise it is logged and [req.Reply]
    is not called. The server is unchanged in both cases. *)
Theorem other_request o req s :
  Type_ req <> "tcpip-forward" ->
  Type_ req <> "cancel-tcpip-forward" ->
  ((exists pre post, Type_ req = pre +:+ "keepalive" +:+ post) ->
   handleRequest o req s = Done tt s [EReply true []]) /\
  (~ (exists pre post, Type_ req = pre +:+ "keepalive" +:+ post) ->
   handleRequest o req s = Done tt s [ELog (LogOutOfBand req)] /\
   replies (trace (handleRequest o req s)) = []).
Proof.
  intros Hf Hc. unfold handleRequest.
  rewrite decide_False by exact Hf. rewrite decide_False by exact Hc.
  destruct (Contains (Type_ req) "keepalive") eqn:Hk.
  - split; [reflexivity|]. intros Hno. apply Contains_spec in Hk. contradiction.
  - split; [|split; reflexivity]. intros Hyes. apply Contains_spec in Hyes.
    congruence.
Qed.

(** C8: a [cancel-tcpip-forward] request never changes the registry (nor
    the set of goroutines); when its payload unmarshals, a listener is
    closed exactly when the address has a binding, and it is that binding's
    listener; for an unknown address nothing at all happens; and serving the
    same request once more changes nothing further. *)
Theorem cancel_forward_spec o req s :
  Type_ req = "cancel-tcpip-forward" ->
  exists s' tr,
    handleRequest o req s = Done tt s' tr /\
    forwards s' = forwards s /\
    checkers s' = checkers s /\
    forall laddr lport,
      Unmarshal (Payload req) = Some (laddr, lport) ->
      (forall ln, EClose ln ∈ tr <->
                  forwards s !! Sprintf_addr laddr lport = Some ln) /\
      (forall ln, forwards s !! Sprintf_addr laddr lport = Some ln ->
                  listening s' = delete ln (listening s)) /\
      (forwards s !! Sprintf_addr laddr lport = None -> s' = s /\ tr = []) /\
      (forall o', handleRequest o' req s' = Done tt s' tr).
Proof.
  intros Ht. rewrite handleRequest_cancel by exact Ht.
  unfold cancelTcpipForward.
  destruct (Unmarshal (Payload req)) as [[laddr lport]|] eqn:Hu.
  - go_run. destruct (forwards s !! Sprintf_addr laddr lport) as [old|] eqn:Hf.
    + eexists _, _. split; [reflexivity|]. cbn [forwards checkers].
      split; [reflexivity|]. split; [reflexivity|].
      intros laddr' lport' [= <- <-]. rewrite Hf. repeat split.
      * rewrite list_elem_of_singleton. now intros [= ->].
      * intros [= ->]. apply list_elem_of_singleton. reflexivity.
      * now intros ln [= ->].
      * discriminate.
      * discriminate.
      * intros o'. rewrite handleRequest_cancel by exact Ht.
        unfold cancelTcpipForward. rewrite Hu. go_run. cbn [forwards].
        rewrite Hf. cbn [listening checkers nextListener].
        now rewrite delete_delete_eq.
    + exists s, []. split; [reflexivity|]. split; [reflexivity|].
      split; [reflexivity|].
      intros laddr' lport' [= <- <-]. rewrite Hf. repeat split.
      * intros Hin. now apply not_elem_of_nil in Hin.
      * discriminate.
      * discriminate.
      * intros o'. rewrite handleRequest_cancel by exact Ht.
        unfold cancelTcpipForward. rewrite Hu. go_run. now rewrite Hf.
  - eexists _, _. split; [reflexivity|]. split; [reflexivity|].
    split; [reflexivity|]. discriminate.
Qed.

(** C10: when a [tcpip-forward] request names an address that has a
    binding and the new bind fails, then by the time [false] is replied the
    old listener has been closed and the stop signal has been handed to a
    keep-alive goroutine, and the registry still maps the address to the
    closed listener. *)
Theorem failed_rebind_leaves_stale_entry o req s laddr lport old :
  Type_ req = "tcpip-forward" ->
  Unmarshal (Payload req) = Some (laddr, lport) ->
  forwards s !! Sprintf_addr laddr lport = Some old ->
  checkers s <> [] ->
  listen_ok o = false ->
  exists s' pre ln' addr',
    handleRequest o req s = Done tt s' (pre ++ [EReply false []]) /\
    (ln', addr') ∈ checkers s /\
    EClose old ∈ pre /\
    EStop ln' addr' ∈ pre /\
    replies pre = [] /\
    forwards s' = forwards s /\
    forwards s' !! Sprintf_addr laddr lport = Some old /\
    listening s' !! old = None.
Proof.
  intros Ht Hu Hf Hne Hfail. rewrite handleRequest_forward by exact Ht.
  destruct (tcpipForward_replace o req s laddr lport old Hu Hf Hne)
    as (j & ln' & addr' & Hj & ->).
  rewrite Hfail. cbv zeta.
  exists (afterStop old j s),
    [ELock; ELog LogClosingOld; EClose old; EStop ln' addr';
     ELog LogStopKeepAlive; EReturn ln' addr'; EUnlock;
     EListen (Sprintf_addr laddr lport) None;
     ELog (LogListenFailed (Sprintf_addr laddr lport))], ln', addr'.
  split; [reflexivity|]. split; [eapply list_elem_of_lookup_2; exact Hj|].
  split; [rewrite !elem_of_cons; tauto|].
  split; [rewrite !elem_of_cons; tauto|].
  split; [reflexivity|]. split; [reflexivity|]. split; [exact Hf|].
  cbn [afterStop listening]. apply lookup_delete_eq.
Qed.

(** C4: a keep-alive goroutine whose probe fails closes its listener, then
    deletes the registry entry of its address between [Lock] and [Unlock],
    and only then returns; one that receives the stop signal returns
    without closing anything and without touching the registry. *)
Theorem checkAlive_exits j ln addr s :
  checkers s !! j = Some (ln, addr) ->
  wake j (Tick true) s
  = Done tt {| forwards := delete addr (forwards s);
               listening := delete ln (listening s);
               checkers := delete j (checkers s);
               nextListener := nextListener s |}
      [EProbe true; ELog LogEndpointGone; EClose ln; ELock; EDelete addr;
       EUnlock; EReturn ln addr]
  /\
  wake j Stop s
  = Done tt {| forwards := forwards s;
               listening := listening s;
               checkers := delete j (checkers s);
               nextListener := nextListener s |}
      [ELog LogStopKeepAlive; EReturn ln addr].
Proof.
  intros Hj. unfold wake. rewrite Hj. split; go_run; reflexivity.
Qed.

(** A probe that is answered leaves everything as it is; the loop goes
    round again. *)
Lemma checkAlive_continues j ln addr s :
  checkers s !! j = Some (ln, addr) ->
  wake j (Tick false) s = Done tt s [EProbe false].
Proof. intros Hj. unfold wake. rewrite Hj. reflexivity. Qed.

End RequestProperties.

(** ** The model at work *)

Example oneForward_reached :
  handleRequest (Lib := Reference.lib) (Example.bindOk 0)
    (Example.forward "" 9000) newServer
  = Done tt Example.oneForward
      [ELock; EUnlock; EListen "[]:9000" (Some 0);
       ELog (LogListening "[]:9000");
       EReply true (Reference.marshalUint32 9000);
       EGoForwardSession 0 "" 9000; EGoCheckAlive 0 "[]:9000";
       ELock; EStore "[]:9000" 0; EUnlock].
Proof. vm_compute. reflexivity. Qed.

Lemma forward_reply_witness :
  exists s' tr,
    handleRequest (Lib := Reference.lib) (Example.bindOk 0)
      (Example.forward "" 0) newServer = Done tt s' tr /\
    EListen "[]:0" (Some 0) ∈ tr /\
    replies tr = [(true, Reference.marshalUint32 0)] /\
    trace (handleRequests (Lib := Reference.lib)
             [(Example.bindOk 0, Example.forward "" 0)] newServer)
    = tr ++ trace (handleRequests (Lib := Reference.lib) [] s').
Proof.
  apply (forward_reply (Lib := Reference.lib) (Example.bindOk 0)
           (Example.forward "" 0) [] newServer "" 0);
    [reflexivity | vm_compute; reflexivity | left; reflexivity].
Defined.

Lemma unmarshal_failure_no_effect_witness :
  handleRequest (Lib := Reference.lib) (Example.bindOk 0)
    {| Type_ := "tcpip-forward"; WantReply := true; Payload := [x00; x00] |}
    Example.oneForward
  = Done tt Example.oneForward [ELog LogUnmarshal; EReply false []].
Proof.
  apply (unmarshal_failure_no_effect (Lib := Reference.lib));
    [left; reflexivity | reflexivity].
Defined.

Lemma other_request_witness :
  handleRequest (Lib := Reference.lib) (Example.bindOk 0)
    {| Type_ := "keepalive@openssh.com"; WantReply := true; Payload := [] |}
    Example.oneForward
  = Done tt Example.oneForward [EReply true []].
Proof.
  apply (other_request (Lib := Reference.lib) (Example.bindOk 0)
           {| Type_ := "keepalive@openssh.com"; WantReply := true;
              Payload := [] |} Example.oneForward);
    [discriminate | discriminate |].
  exists "", "@openssh.com". reflexivity.
Defined.

Lemma cancel_forward_spec_witness :
  exists s' tr,
    handleRequest (Lib := Reference.lib) (Example.bindOk 0)
      (Example.cancel "" 9000) Example.oneForward = Done tt s' tr /\
    forwards s' = forwards Example.oneForward /\
    checkers s' = checkers Example.oneForward /\
    forall laddr lport,
      Unmarshal (SshLib := Reference.lib)
        (Payload (Example.cancel "" 9000)) = Some (laddr, lport) ->
      (forall ln, EClose ln ∈ tr <->
                  forwards Example.oneForward !! Sprintf_addr laddr lport
                  = Some ln) /\
      (forall ln, forwards Example.oneForward !! Sprintf_addr laddr lport
                  = Some ln ->
                  listening s' = delete ln (listening Example.oneForward)) /\
      (forwards Example.oneForward !! Sprintf_addr laddr lport = None ->
       s' = Example.oneForward /\ tr = []) /\
      (forall o', handleRequest (Lib := Reference.lib) o'
                    (Example.cancel "" 9000) s' = Done tt s' tr).
Proof.
  apply (cancel_forward_spec (Lib := Reference.lib) (Example.bindOk 0)
           (Example.cancel "" 9000) Example.oneForward).
  reflexivity.
Defined.

Lemma failed_rebind_leaves_stale_entry_witness :
  exists s' pre ln' addr',
    handleRequest (Lib := Reference.lib) (Example.bindFails 0)
      (Example.forward "" 9000) Example.oneForward
    = Done tt s' (pre ++ [EReply false []]) /\
    (ln', addr') ∈ checkers Example.oneForward /\
    EClose 0 ∈ pre /\
    EStop ln' addr' ∈ pre /\
    replies pre = [] /\
    forwards s' = forwards Example.oneForward /\
    forwards s' !! Sprintf_addr "" 9000 = Some 0 /\
    listening s' !! 0 = None.
Proof.
  apply (failed_rebind_leaves_stale_entry (Lib := Reference.lib)
           (Example.bindFails 0) (Example.forward "" 9000)
           Example.oneForward "" 9000 0);
    [reflexivity | vm_compute; reflexivity | vm_compute; reflexivity
    | discriminate | reflexivity].
Defined.

Lemma checkAlive_exits_witness :
  wake 0 (Tick true) Example.oneForward
  = Done tt {| forwards := delete "[]:9000" (forwards Example.oneForward);
               listening := delete 0 (listening Example.oneForward);
               checkers := delete 0 (checkers Example.oneForward);
               nextListener := nextListener Example.oneForward |}
      [EProbe true; ELog LogEndpointGone; EClose 0; ELock; EDelete "[]:9000";
       EUnlock; EReturn 0 "[]:9000"]
  /\
  wake 0 Stop Example.oneForward
  = Done tt {| forwards := forwards Example.oneForward;
               listening := listening Example.oneForward;
               checkers := delete 0 (checkers Example.oneForward);
               nextListener := nextListener Example.oneForward |}
      [ELog LogStopKeepAlive; EReturn 0 "[]:9000"].
Proof.
  apply (checkAlive_exits 0 0 "[]:9000" Example.oneForward). reflexivity.
Defined.

(** ** Replacing a forward *)

Section Replacement.
Context `{Lib : SshLib}.

(** When the goroutine of the old binding is the only one selecting, it is
    the one that takes the stop signal, and it has returned before the new
    goroutine is started and the new binding stored. *)
Lemma replace_single_checker o req s laddr lport old :
  Type_ req = "tcpip-forward" ->
  Unmarshal (Payload req) = Some (laddr, lport) ->
  forwards s !! Sprintf_addr laddr lport = Some old ->
  checkers s = [(old, Sprintf_addr laddr lport)] ->
  listen_ok o = true ->
  handleRequest o req s
  = Done tt {| forwards := <[Sprintf_addr laddr lport := nextListener s]>
                             (forwards s);
               listening := <[nextListener s := Sprintf_addr laddr lport]>
                              (delete old (listening s));
               checkers := [(nextListener s, Sprintf_addr laddr lport)];
               nextListener := S (nextListener s) |}
      [ELock; ELog LogClosingOld; EClose old;
       EStop old (Sprintf_addr laddr lport);
       ELog LogStopKeepAlive; EReturn old (Sprintf_addr laddr lport);
       EUnlock;
       EListen (Sprintf_addr laddr lport) (Some (nextListener s));
       ELog (LogListening (Sprintf_addr laddr lport));
       EReply true (Marshal lport);
       EGoForwardSession (nextListener s) laddr lport;
       EGoCheckAlive (nextListener s) (Sprintf_addr laddr lport);
       ELock; EStore (Sprintf_addr laddr lport) (nextListener s); EUnlock].
Proof.
  intros Ht Hu Hf Hcs Hok. rewrite handleRequest_forward by exact Ht.
  assert (Hne : checkers s <> []) by (rewrite Hcs; discriminate).
  destruct (tcpipForward_replace o req s laddr lport old Hu Hf Hne)
    as (j & ln' & addr' & Hj & ->).
  rewrite Hok. cbv zeta. rewrite Hcs in Hj |- *.
  destruct j as [|j]; [|destruct j; discriminate].
  injection Hj as <- <-. reflexivity.
Qed.

(** Whatever goroutine takes the signal: if the registered listener was the
    only one bound to the address, the new listener is the only one bound
    to it afterwards. *)
Lemma replace_one_listener o req s laddr lport old :
  Type_ req = "tcpip-forward" ->
  Unmarshal (Payload req) = Some (laddr, lport) ->
  forwards s !! Sprintf_addr laddr lport = Some old ->
  (forall ln, listening s !! ln = Some (Sprintf_addr laddr lport) -> ln = old) ->
  checkers s <> [] ->
  listen_ok o = true ->
  exists s' tr,
    handleRequest o req s = Done tt s' tr /\
    forwards s' !! Sprintf_addr laddr lport = Some (nextListener s) /\
    forall ln, listening s' !! ln = Some (Sprintf_addr laddr lport) <->
               ln = nextListener s.
Proof.
  intros Ht Hu Hf Honly Hne Hok. rewrite handleRequest_forward by exact Ht.
  destruct (tcpipForward_replace o req s laddr lport old Hu Hf Hne)
    as (j & ln' & addr' & Hj & ->).
  rewrite Hok. cbv zeta. eexists _, _. split; [reflexivity|].
  cbn [forwards listening]. split; [apply lookup_insert_eq|].
  intros ln. destruct (decide (ln = nextListener s)) as [->|Hnew].
  - rewrite lookup_insert_eq. tauto.
  - rewrite lookup_insert_ne by congruence.
    destruct (decide (ln = old)) as [->|Hold].
    + rewrite lookup_delete_eq. split; [discriminate|contradiction].
    + rewrite lookup_delete_ne by congruence. split; [|contradiction].
      intros Hl. apply Honly in Hl. contradiction.
Qed.

End Replacement.

(** C3 fails on the code when a second forward is active. The third request
    replaces the binding of [[]:9000]: listener 0 is closed, but the stop
    signal is taken by the goroutine started on listener 1 for [[]:9001].
    The goroutine of the prior binding, started on listener 0, is still
    running when the new one is started on listener 2, and listener 1 stays
    bound and registered with no goroutine watching it. *)
Theorem stop_signal_reaches_other_forward :
  exists pre,
    run (Lib := Reference.lib) Example.crossTalk newServer
    = Done tt {| forwards := {[ "[]:9000" := 2; "[]:9001" := 1 ]};
                 listening := {[ 1 := "[]:9001"; 2 := "[]:9000" ]};
                 checkers := [(0, "[]:9000"); (2, "[]:9000")];
                 nextListener := 3 |}
        (pre ++
         [ELock; ELog LogClosingOld; EClose 0; EStop 1 "[]:9001";
          ELog LogStopKeepAlive; EReturn 1 "[]:9001"; EUnlock;
          EListen "[]:9000" (Some 2); ELog (LogListening "[]:9000");
          EReply true (Reference.marshalUint32 9000);
          EGoForwardSession 2 "" 9000; EGoCheckAlive 2 "[]:9000";
          ELock; EStore "[]:9000" 2; EUnlock])
    /\ ~ (EStop 0 "[]:9000" ∈ pre).
Proof.
  exists [ELock; EUnlock; EListen "[]:9000" (Some 0);
          ELog (LogListening "[]:9000");
          EReply true (Reference.marshalUint32 9000);
          EGoForwardSession 0 "" 9000; EGoCheckAlive 0 "[]:9000";
          ELock; EStore "[]:9000" 0; EUnlock;
          ELock; EUnlock; EListen "[]:9001" (Some 1);
          ELog (LogListening "[]:9001");
          EReply true (Reference.marshalUint32 9001);
          EGoForwardSession 1 "" 9001; EGoCheckAlive 1 "[]:9001";
          ELock; EStore "[]:9001" 1; EUnlock].
  split; [vm_compute; reflexivity|].
  rewrite !elem_of_cons. intros H.
  repeat (destruct H as [H|H]; [discriminate|]).
  now apply not_elem_of_nil in H.
Qed.

(** What follows when the transport dies: both remaining goroutines were
    started for [[]:9000]; once their probes have failed no goroutine is
    left, and listener 1 is still bound and registered. *)
Example crossTalk_leaks_listener :
  final (run (Lib := Reference.lib) Example.crossTalkThenDeath newServer)
  = {| forwards := {[ "[]:9001" := 1 ]};
       listening := {[ 1 := "[]:9001" ]};
       checkers := [];
       nextListener := 3 |}.
Proof. vm_compute. reflexivity. Qed.

(** An entry left behind by a failed re-bind has no goroutine: the next
    [tcpip-forward] for the address never gets past the send. *)
Example stale_entry_blocks_next_forward :
  handleRequests (Lib := Reference.lib)
    [(Example.bindFails 0, Example.forward "" 9000);
     (Example.bindOk 0, Example.forward "" 9000)] Example.oneForward
  = Blocked {| forwards := {[ "[]:9000" := 0 ]};
               listening := ∅;
               checkers := [];
               nextListener := 1 |}
      [ELock; ELog LogClosingOld; EClose 0; EStop 0 "[]:9000";
       ELog LogStopKeepAlive; EReturn 0 "[]:9000"; EUnlock;
       EListen "[]:9000" None; ELog (LogListenFailed "[]:9000");
       EReply false [];
       ELock; ELog LogClosingOld; EClose 0].
Proof. vm_compute. reflexivity. Qed.

(** ** Every way a request is served *)

Section ServedProperties.
Context `{Lib : SshLib}.

Lemma handleRequest_served o req s : Served o req s (handleRequest o req s).
Proof.
  unfold handleRequest.
  destruct (decide (Type_ req = "tcpip-forward")) as [Hf|Hf].
  - destruct (Unmarshal (Payload req)) as [[laddr lport]|] eqn:Hu.
    + destruct (forwards s !! Sprintf_addr laddr lport) as [old|] eqn:Hr.
      * destruct (checkers s) as [|c cs] eqn:Hcs.
        -- rewrite (tcpipForward_blocked o req s laddr lport old Hu Hr Hcs).
           eapply served_blocked; eassumption.
        -- assert (Hne : checkers s <> []) by (rewrite Hcs; discriminate).
           destruct (tcpipForward_replace o req s laddr lport old Hu Hr Hne)
             as (j & ln' & addr' & Hj & ->).
           cbv zeta. destruct (listen_ok o) eqn:Hok.
           ++ eapply served_replace_bound; eassumption.
           ++ eapply served_replace_refused; eassumption.
      * rewrite (tcpipForward_fresh o req s laddr lport Hu Hr). cbv zeta.
        destruct (listen_ok o) eqn:Hok.
        -- eapply served_fresh_bound; eassumption.
        -- eapply served_fresh_refused; eassumption.
    + unfold tcpipForward. rewrite Hu. apply served_bad_payload; auto.
  - destruct (decide (Type_ req = "cancel-tcpip-forward")) as [Hc|Hc].
    + unfold cancelTcpipForward.
      destruct (Unmarshal (Payload req)) as [[laddr lport]|] eqn:Hu.
      * go_run.
        destruct (forwards s !! Sprintf_addr laddr lport) as [old|] eqn:Hr.
        -- eapply served_cancel_bound; eassumption.
        -- eapply served_cancel_unknown; eassumption.
      * apply served_bad_payload; auto.
    + destruct (Contains (Type_ req) "keepalive") eqn:Hk.
      * now apply served_keepalive.
      * now apply served_out_of_band.
Qed.

(** The request loop gets stuck in exactly one situation: a [tcpip-forward]
    whose payload unmarshals, for an address the registry holds, while no
    keep-alive goroutine is running to take the stop signal. *)
Theorem handleRequest_blocks_iff o req s :
  (exists s' tr, handleRequest o req s = Blocked s' tr) <->
  Type_ req = "tcpip-forward" /\
  exists laddr lport old,
    Unmarshal (Payload req) = Some (laddr, lport) /\
    forwards s !! Sprintf_addr laddr lport = Some old /\
    checkers s = [].
Proof.
  split.
  - intros (s' & tr & Hb).
    destruct (handleRequest_served o req s); try discriminate.
    split; [assumption|]. eauto 6.
  - intros (Ht & laddr & lport & old & Hu & Hr & Hcs).
    rewrite handleRequest_forward by exact Ht.
    rewrite (tcpipForward_blocked o req s laddr lport old Hu Hr Hcs). eauto.
Qed.

(** Once the loop is stuck, no later request of the connection is served. *)
Lemma handleRequests_stuck o req reqs s s' tr :
  handleRequest o req s = Blocked s' tr ->
  handleRequests ((o, req) :: reqs) s = Blocked s' tr.
Proof. intros Hb. cbn [handleRequests]. unfold bind. now rewrite Hb. Qed.

(** [req.Reply] is called at most once per request, whatever the request,
    the state of the server and the scheduling. *)
Theorem at_most_one_reply o req s :
  length (replies (trace (handleRequest o req s))) <= 1.
Proof. destruct (handleRequest_served o req s); cbn; lia. Qed.

(** A [cancel-tcpip-forward] whose payload unmarshals is never answered:
    [req.Reply] is not called, whether the address has a binding or not. *)
Theorem cancel_not_replied o req s laddr lport :
  Type_ req = "cancel-tcpip-forward" ->
  Unmarshal (Payload req) = Some (laddr, lport) ->
  replies (trace (handleRequest o req s)) = [].
Proof.
  intros Ht Hu.
  destruct (handleRequest_served o req s); try reflexivity; try congruence;
    match goal with H : _ \/ _ |- _ => destruct H; congruence end.
Qed.

(** Serving a request never changes the registry entry of an address other
    than the one a [tcpip-forward] names. *)
Theorem request_keeps_other_addresses o req s addr' :
  (forall laddr lport,
     Type_ req = "tcpip-forward" ->
     Unmarshal (Payload req) = Some (laddr, lport) ->
     Sprintf_addr laddr lport <> addr') ->
  forwards (final (handleRequest o req s)) !! addr' = forwards s !! addr'.
Proof.
  intros Hother.
  destruct (handleRequest_served o req s); cbn [final forwards afterStop];
    try reflexivity; apply lookup_insert_ne; eauto.
Qed.

(** Serving a request closes no listener but the one the registry holds for
    the address of the request. *)
Theorem request_keeps_other_listeners o req s ln a :
  Coherent s ->
  listening s !! ln = Some a ->
  (forall laddr lport,
     Unmarshal (Payload req) = Some (laddr, lport) ->
     forwards s !! Sprintf_addr laddr lport <> Some ln) ->
  listening (final (handleRequest o req s)) !! ln = Some a.
Proof.
  intros Hc Hln Hother.
  assert (Hlt : ln < nextListener s) by (eapply listening_below; eauto).
  destruct (handleRequest_served o req s); cbn [final listening afterStop];
    try assumption;
    rewrite ?lookup_insert_ne by lia;
    try assumption;
    (rewrite lookup_delete_ne; [assumption|]);
    intros ->; eapply Hother; eauto.
Qed.

End ServedProperties.

(** ** Consistency is kept *)

Lemma final_bind {A B} (m : M A) (k : A -> M B) s :
  final (bind m k s)
  = match m s with
    | Blocked s1 _ => s1
    | Done a s1 _ => final (k a s1)
    end.
Proof. unfold bind. destruct (m s) as [a s1 t1|s1 t1]; [|reflexivity].
  now destruct (k a s1). Qed.

Lemma newServer_coherent : Coherent newServer.
Proof.
  split; cbn; intros *;
    rewrite ?lookup_empty, ?elem_of_nil; try discriminate; try tauto.
  constructor.
Qed.

Lemma coherent_close old F L cs n :
  Coherent {| forwards := F; listening := L; checkers := cs;
              nextListener := n |} ->
  Coherent {| forwards := F; listening := delete old L; checkers := cs;
              nextListener := n |}.
Proof.
  intros [Hrb Hlb Hcb Hrbd Hcbd Hnd]. cbn in *. split; cbn; intros *;
    rewrite ?lookup_delete_Some; try assumption; intuition eauto.
Qed.

Lemma coherent_drop_checker j F L cs n :
  Coherent {| forwards := F; listening := L; checkers := cs;
              nextListener := n |} ->
  Coherent {| forwards := F; listening := L; checkers := delete j cs;
              nextListener := n |}.
Proof.
  intros [Hrb Hlb Hcb Hrbd Hcbd Hnd]. cbn in *. split; cbn; try assumption.
  - intros ln addr Hin. apply list_elem_of_delete_inv in Hin. eauto.
  - intros ln addr a Hin. apply list_elem_of_delete_inv in Hin. eauto.
  - rewrite list_fmap_delete. eapply sublist_NoDup; [exact Hnd|].
    apply sublist_delete.
Qed.

Lemma coherent_delete addr F L cs n :
  Coherent {| forwards := F; listening := L; checkers := cs;
              nextListener := n |} ->
  Coherent {| forwards := delete addr F; listening := L; checkers := cs;
              nextListener := n |}.
Proof.
  intros [Hrb Hlb Hcb Hrbd Hcbd Hnd]. cbn in *. split; cbn; intros *;
    rewrite ?lookup_delete_Some; try assumption; intuition eauto.
Qed.

(** A successful [net.Listen] followed by [go checkAliveFun] and the store
    into the registry. *)
Lemma coherent_bound addr F L cs n :
  Coherent {| forwards := F; listening := L; checkers := cs;
              nextListener := n |} ->
  Coherent {| forwards := <[addr := n]> F;
              listening := <[n := addr]> L;
              checkers := cs ++ [(n, addr)];
              nextListener := S n |}.
Proof.
  intros [Hrb Hlb Hcb Hrbd Hcbd Hnd]. cbn in *. split; cbn.
  - intros addr' ln. rewrite lookup_insert_Some.
    intros [[_ <-]|[_ Hl]]; [lia|]. apply Hrb in Hl. lia.
  - intros ln a. rewrite lookup_insert_Some.
    intros [[<- _]|[_ Hl]]; [lia|]. apply Hlb in Hl. lia.
  - intros ln addr'. rewrite elem_of_app, list_elem_of_singleton.
    intros [Hin|[= -> _]]; [|lia]. apply Hcb in Hin. lia.
  - intros addr' ln a. rewrite !lookup_insert_Some.
    intros [[<- <-]|[Hne Hf]] [[Hn <-]|[Hn Hl]]; try reflexivity; try congruence.
    + apply Hrb in Hf. lia.
    + eauto.
  - intros ln addr' a. rewrite elem_of_app, list_elem_of_singleton.
    rewrite lookup_insert_Some.
    intros [Hin|[= -> ->]] [[Hn <-]|[Hn Hl]]; try reflexivity; try congruence.
    + apply Hcb in Hin. lia.
    + eauto.
  - rewrite fmap_app. cbn. apply NoDup_app. split; [exact Hnd|].
    split; [|apply NoDup_singleton].
    intros ln Hin. rewrite list_elem_of_singleton. intros ->.
    apply list_elem_of_fmap in Hin as [[ln addr'] [Heq Hin]].
    cbn in Heq. subst ln. apply Hcb in Hin. lia.
Qed.

Section CoherentRuns.
Context `{Lib : SshLib}.

Lemma handleRequest_coherent o req s :
  Coherent s -> Coherent (final (handleRequest o req s)).
Proof.
  intros Hc. destruct (handleRequest_served o req s); cbn [final afterStop];
    try assumption; destruct s as [F L cs n]; cbn in *; subst;
    repeat first [ apply coherent_bound | apply coherent_drop_checker
                 | apply coherent_close | assumption ].
Qed.

Lemma wake_coherent j w s : Coherent s -> Coherent (final (wake j w s)).
Proof.
  intros Hc. unfold wake.
  destruct (checkers s !! j) as [[ln addr]|]; [|exact Hc].
  destruct w as [[|]|]; go_run; cbn [final]; try assumption;
    destruct s as [F L cs n]; cbn in *;
    repeat first [ apply coherent_drop_checker | apply coherent_delete
                 | apply coherent_close | assumption ].
Qed.

(** Whatever requests arrive, whatever the binds and the probes give and
    however the stop signals are scheduled, the server started by
    [NewSshServer] stays consistent: an open listener that the registry
    holds under an address, or that a keep-alive goroutine was started on
    for an address, is bound to that address; no listener is watched by two
    goroutines. *)
Theorem run_coherent ts :
  Coherent (final (run ts newServer)).
Proof.
  assert (Hgen : forall s, Coherent s -> Coherent (final (run ts s))).
  { induction ts as [|t ts IH]; intros s Hc; [exact Hc|].
    cbn [run]. rewrite final_bind.
    assert (Ht : Coherent (final (turn t s))).
    { destruct t; [now apply handleRequest_coherent|now apply wake_coherent]. }
    destruct (turn t s) as [[] s1 t1|s1 t1]; cbn [final] in Ht; [|exact Ht].
    now apply IH. }
  apply Hgen, newServer_coherent.
Qed.

Lemma wake_probe_failed j ln addr s :
  checkers s !! j = Some (ln, addr) ->
  wake j (Tick true) s
  = Done tt {| forwards := delete addr (forwards s);
               listening := delete ln (listening s);
               checkers := delete j (checkers s);
               nextListener := nextListener s |}
      [EProbe true; ELog LogEndpointGone; EClose ln; ELock; EDelete addr;
       EUnlock; EReturn ln addr].
Proof. intros Hj. unfold wake. rewrite Hj. reflexivity. Qed.

(** A forward that is set up for a new address and then loses its client
    leaves no trace: after the failed probe the registry, the open
    listeners and the running goroutines are what they were before the
    request. *)
Theorem forward_then_probe_failure o req s laddr lport :
  Coherent s ->
  Type_ req = "tcpip-forward" ->
  Unmarshal (Payload req) = Some (laddr, lport) ->
  forwards s !! Sprintf_addr laddr lport = None ->
  listen_ok o = true ->
  final (run [Incoming o req; Ticker (length (checkers s)) true] s)
  = {| forwards := forwards s;
       listening := listening s;
       checkers := checkers s;
       nextListener := S (nextListener s) |}.
Proof.
  intros Hc Ht Hu Hf Hok. cbn [run turn]. rewrite !final_bind.
  rewrite handleRequest_forward by exact Ht.
  rewrite (tcpipForward_fresh o req s laddr lport Hu Hf), Hok.
  cbv beta iota zeta. rewrite final_bind.
  rewrite (wake_probe_failed (length (checkers s)) (nextListener s)
             (Sprintf_addr laddr lport))
    by (cbn [checkers]; now apply list_lookup_middle).
  cbn [final ret forwards listening checkers nextListener].
  rewrite delete_insert_eq, (delete_id _ _ Hf).
  rewrite delete_insert_eq, delete_id.
  - now rewrite (delete_middle (checkers s) []), app_nil_r.
  - destruct (listening s !! nextListener s) as [a|] eqn:Hl; [|reflexivity].
    apply (listening_below s Hc) in Hl. lia.
Qed.

(** When the client is gone and the probe of every running goroutine
    fails, all goroutines return, and exactly the addresses and listeners
    they were started on are removed from the registry and closed; an
    entry or a listener that no goroutine watches stays as it is. *)
Theorem transportDeath_cleans s :
  exists s' tr,
    run (transportDeath s) s = Done tt s' tr /\
    checkers s' = [] /\
    (forall addr, forwards s' !! addr
                  = if decide (addr ∈ (checkers s).*2) then None
                    else forwards s !! addr) /\
    (forall ln, listening s' !! ln
                = if decide (ln ∈ (checkers s).*1) then None
                  else listening s !! ln).
Proof.
  unfold transportDeath. remember (checkers s) as cs eqn:Hcs.
  revert s Hcs. induction cs as [|[ln addr] cs IH]; intros s Hcs.
  - exists s, []. split; [reflexivity|]. split; [now symmetry|].
    split; intros x; rewrite decide_False by apply not_elem_of_nil;
      reflexivity.
  - cbn [length replicate run turn]. unfold bind.
    rewrite (wake_probe_failed 0 ln addr) by now rewrite <- Hcs.
    set (s1 := {| forwards := delete addr (forwards s);
                  listening := delete ln (listening s);
                  checkers := delete 0 (checkers s);
                  nextListener := nextListener s |}).
    assert (Hcs1 : cs = checkers s1) by (cbn; now rewrite <- Hcs).
    destruct (IH s1 Hcs1) as (s' & tr & -> & Hnil & Hfw & Hls).
    eexists _, _. split; [reflexivity|]. split; [exact Hnil|].
    split.
    + intros a. rewrite Hfw. cbn [forwards s1 fmap list_fmap snd].
      destruct (decide (a = addr)) as [->|Hne].
      * rewrite lookup_delete_eq, (decide_True (P := addr ∈ addr :: _))
          by apply list_elem_of_here.
        now destruct (decide _).
      * rewrite lookup_delete_ne by congruence.
        destruct (decide (a ∈ cs.*2)) as [Hin|Hin].
        -- now rewrite decide_True by now apply list_elem_of_further.
        -- rewrite decide_False; [reflexivity|].
           rewrite elem_of_cons. tauto.
    + intros l. rewrite Hls. cbn [listening s1 fmap list_fmap fst].
      destruct (decide (l = ln)) as [->|Hne].
      * rewrite lookup_delete_eq, (decide_True (P := ln ∈ ln :: _))
          by apply list_elem_of_here.
        now destruct (decide _).
      * rewrite lookup_delete_ne by congruence.
        destruct (decide (l ∈ cs.*1)) as [Hin|Hin].
        -- now rewrite decide_True by now apply list_elem_of_further.
        -- rewrite decide_False; [reflexivity|].
           rewrite elem_of_cons. tauto.
Qed.

End CoherentRuns.

(** ** The registry key *)

Lemma list_ascii_of_string_app s1 s2 :
  list_ascii_of_string (s1 +:+ s2)
  = list_ascii_of_string s1 ++ list_ascii_of_string s2.
Proof. induction s1 as [|c s1 IH]; simpl; [reflexivity|now rewrite IH]. Qed.

Lemma first_occurrence {A} (c : A) l1 r1 l2 r2 :
  c ∉ l1 -> c ∉ l2 -> l1 ++ c :: r1 = l2 ++ c :: r2 -> l1 = l2 /\ r1 = r2.
Proof.
  revert l2. induction l1 as [|x l1 IH]; intros [|y l2] H1 H2 Heq;
    cbn in Heq.
  - now injection Heq.
  - injection Heq as <- _. exfalso. apply H2. apply list_elem_of_here.
  - injection Heq as -> _. exfalso. apply H1. apply list_elem_of_here.
  - injection Heq as <- Heq. rewrite not_elem_of_cons in H1, H2.
    destruct (IH l2) as [-> ->]; tauto.
Qed.

Lemma last_occurrence {A} (c : A) l1 r1 l2 r2 :
  c ∉ r1 -> c ∉ r2 -> l1 ++ c :: r1 = l2 ++ c :: r2 -> l1 = l2 /\ r1 = r2.
Proof.
  intros H1 H2 Heq. apply (f_equal reverse) in Heq.
  rewrite !reverse_app, !reverse_cons, <- !app_assoc in Heq. cbn in Heq.
  apply first_occurrence in Heq as [Hr Hl].
  - split; [now apply (inj reverse)|now apply (inj reverse)].
  - now rewrite elem_of_reverse.
  - now rewrite elem_of_reverse.
Qed.

(** The decimal form of a port has no colon in it. *)
Lemma pretty_N_go_no_colon x s :
  ":"%char ∉ list_ascii_of_string s ->
  ":"%char ∉ list_ascii_of_string (pretty_N_go x s).
Proof.
  revert s. induction (N.lt_wf_0 x) as [x _ IH]; intros s Hs.
  assert (x = 0 \/ 0 < x)%N as [->|Hpos] by lia.
  - now rewrite pretty_N_go_0.
  - rewrite pretty_N_go_step by exact Hpos. apply IH.
    + now apply N.div_lt.
    + cbn. rewrite not_elem_of_cons. split; [|exact Hs].
      unfold pretty_N_char. repeat case_match; discriminate.
Qed.

Lemma pretty_N_no_colon (x : N) :
  ":"%char ∉ list_ascii_of_string (pretty x).
Proof.
  unfold pretty, pretty_N. destruct (decide (x = 0)%N).
  - cbn. rewrite not_elem_of_cons. split; [discriminate|apply not_elem_of_nil].
  - apply pretty_N_go_no_colon. apply not_elem_of_nil.
Qed.

(** Two forwards share a registry key only if they have the same bind
    address and the same port: the key determines both. *)
Theorem Sprintf_addr_inj laddr lport laddr' lport' :
  Sprintf_addr laddr lport = Sprintf_addr laddr' lport' ->
  laddr = laddr' /\ lport = lport'.
Proof.
  unfold Sprintf_addr. intros Heq.
  apply (f_equal list_ascii_of_string) in Heq.
  rewrite !list_ascii_of_string_app in Heq. cbn in Heq.
  injection Heq as Heq.
  change (?l ++ "]"%char :: ":"%char :: ?r)
    with (l ++ ["]"%char] ++ ":"%char :: r) in Heq.
  rewrite !app_assoc in Heq.
  apply last_occurrence in Heq as [Hl Hr]; try apply pretty_N_no_colon.
  apply app_inj_tail in Hl as [Hl _].
  split.
  - rewrite <- (string_of_list_ascii_of_string laddr),
      <- (string_of_list_ascii_of_string laddr'). now rewrite Hl.
  - apply (inj pretty).
    rewrite <- (string_of_list_ascii_of_string (pretty lport)),
      <- (string_of_list_ascii_of_string (pretty lport')). now rewrite Hr.
Qed.

(** ** What the loader accepts and when it gives up *)

Section EntriesProperties.
Context `{Lib : SshLib}.

Lemma parseAll_return bs ks m :
  Parses bs ks -> parseAll bs m = Return (storeKeys m ks).
Proof.
  intros Hp. revert m. induction Hp as [|b bs k rest ks Hk _ IH]; intros m.
  - now simp parseAll.
  - simp parseAll. generalize (inspect (ParseAuthorizedKey (b :: bs))).
    intros [[[k' r']|] He]; [|congruence].
    simp parseAll. rewrite Hk in He. injection He as <- <-. apply IH.
Qed.

(** The loop always comes to an end: the file parses to a list of keys, or
    the parser fails somewhere in it. *)
Lemma parse_total bs : (exists ks, Parses bs ks) \/ ParseFails bs.
Proof.
  remember (length bs) as n eqn:Hn. revert bs Hn.
  induction n as [n IH] using lt_wf_ind. intros bs ->.
  destruct bs as [|b bs]; [left; exists []; constructor|].
  destruct (ParseAuthorizedKey (b :: bs)) as [[k rest]|] eqn:Hk.
  - destruct (IH (length rest) (ParseAuthorizedKey_rest _ _ _ Hk) rest
                eq_refl) as [[ks Hks]|Hf].
    + left. exists (k :: ks). now apply (parses_key b bs k rest).
    + right. now apply (fails_later b bs k rest).
  - right. now apply fails_here.
Qed.

Lemma parseAll_exit_inv bs m st : parseAll bs m = Exit st -> ParseFails bs.
Proof.
  intros He. destruct (parse_total bs) as [[ks Hks]|Hf]; [|exact Hf].
  rewrite (parseAll_return bs ks m Hks) in He. discriminate.
Qed.

(** The loader ends the process in exactly three situations: the path
    cannot be expanded, the file cannot be read, or the parser fails
    somewhere in the file; the exit status is 1. *)
Theorem loadAuthorizedKeys_exit_iff file fs st :
  loadAuthorizedKeys file fs = Exit st <->
  st = 1%N /\
  (ExpandUserHome file = None \/
   exists path, ExpandUserHome file = Some path /\
     (fs path = None \/ exists bs, fs path = Some bs /\ ParseFails bs)).
Proof.
  unfold loadAuthorizedKeys.
  destruct (ExpandUserHome file) as [path|].
  - destruct (fs path) as [bs|] eqn:Hfs.
    + split.
      * intros He. pose proof (parseAll_exit_inv _ _ _ He) as Hf.
        rewrite (parseAll_exit bs ∅ Hf) in He. injection He as <-.
        split; [reflexivity|]. right. exists path. split; [reflexivity|].
        right. exists bs. now rewrite Hfs.
      * intros [-> [|(path' & [= <-] & [Hn|(bs' & Hb & Hf)])]];
          [discriminate|congruence|].
        rewrite Hfs in Hb. injection Hb as <-. now apply parseAll_exit.
    + split; [intros [= <-]|intros [-> _]; reflexivity].
      split; [reflexivity|]. right. exists path. rewrite Hfs. tauto.
  - split; [intros [= <-]; tauto|intros [-> _]; reflexivity].
Qed.

Lemma index_storeKeys ks m x :
  index_bool (storeKeys m ks) x = true <->
  index_bool m x = true \/ x ∈ keyString <$> ks.
Proof.
  revert m. induction ks as [|k ks IH]; intros m.
  - cbn. rewrite elem_of_nil. tauto.
  - change (storeKeys m (k :: ks))
      with (storeKeys (<[keyString k := true]> m) ks).
    rewrite IH, fmap_cons, elem_of_cons. unfold index_bool at 1.
    destruct (decide (keyString k = x)) as [<-|Hne].
    + rewrite lookup_insert_eq. cbn. tauto.
    + rewrite lookup_insert_ne by exact Hne. fold (index_bool m x).
      split; [tauto|]. intros [?|[?|?]]; [tauto|congruence|tauto].
Qed.

Lemma keyString_eq k1 k2 :
  keyString k1 = keyString k2 <-> key_Marshal k1 = key_Marshal k2.
Proof.
  unfold keyString. split; [|now intros ->].
  intros Heq. apply (f_equal list_byte_of_string) in Heq.
  now rewrite !list_byte_of_string_of_list_byte in Heq.
Qed.

(** A key is let in exactly when its wire bytes equal those of one of the
    entries the file parses to; the order of the entries, repeated entries
    and the user name play no part. *)
Theorem keyAuth_accepts_iff_listed file fs conn pubKey path bs ks :
  ExpandUserHome file = Some path ->
  fs path = Some bs ->
  Parses bs ks ->
  ((keyAuth file fs conn pubKey).2
   = Return (inl {| Extensions :=
                      {[ "pubkey-fp" := FingerprintSHA256 pubKey ]} |})
   <-> exists k, k ∈ ks /\ key_Marshal k = key_Marshal pubKey)
  /\
  ((keyAuth file fs conn pubKey).2
   = Return (inr ("unknown public key for " +:+ Quote (User conn)))
   <-> ~ exists k, k ∈ ks /\ key_Marshal k = key_Marshal pubKey).
Proof.
  intros Hpath Hfs Hks. unfold keyAuth, loadAuthorizedKeys. cbn [snd].
  rewrite Hpath, Hfs, (parseAll_return bs ks ∅ Hks).
  assert (Hidx : index_bool (storeKeys ∅ ks) (keyString pubKey) = true <->
                 exists k, k ∈ ks /\ key_Marshal k = key_Marshal pubKey).
  { rewrite index_storeKeys. unfold index_bool at 1. rewrite lookup_empty.
    cbn. rewrite list_elem_of_fmap. split.
    - intros [|(k & Heq & Hin)]; [discriminate|].
      exists k. split; [exact Hin|]. now apply keyString_eq.
    - intros (k & Hin & Heq). right. exists k.
      split; [|exact Hin]. symmetry. now apply keyString_eq. }
  destruct (index_bool (storeKeys ∅ ks) (keyString pubKey)).
  - split; split; try discriminate; try reflexivity.
    + intros _. now apply Hidx.
    + intros Hno. exfalso. apply Hno. now apply Hidx.
  - split; split; try discriminate; try reflexivity.
    + intros Hyes. apply Hidx in Hyes. discriminate.
    + intros _ Hyes. apply Hidx in Hyes. discriminate.
Qed.

(** An empty authorized-keys file is no error: the loader returns, and the
    callback refuses every key. *)
Theorem keyAuth_empty_file file fs conn pubKey path :
  ExpandUserHome file = Some path ->
  fs path = Some [] ->
  (keyAuth file fs conn pubKey).2
  = Return (inr ("unknown public key for " +:+ Quote (User conn))).
Proof.
  intros Hpath Hfs. unfold keyAuth, loadAuthorizedKeys. cbn [snd].
  rewrite Hpath, Hfs. simp parseAll. reflexivity.
Qed.

End EntriesProperties.

(** ** The channel dispatcher, completed *)

(** The dispatcher rejects a channel only for an unknown type: a [session]
    or [direct-tcpip] request is never rejected by it, and the reason of a
    rejection is always [UnknownChannelType]. *)
Theorem channel_rejected_iff (chans : list NewChannel) i c reason msg :
  handleChannels chans !! i = Some (Reject c reason msg) <->
  chans !! i = Some c /\
  ChannelType c <> "session" /\
  ChannelType c <> "direct-tcpip" /\
  reason = UnknownChannelType /\
  msg = "unknown channel type: " +:+ ChannelType c.
Proof.
  unfold handleChannels.
  change (map handleChannel chans) with (handleChannel <$> chans).
  rewrite list_lookup_fmap.
  destruct (chans !! i) as [c'|]; cbn;
    [|split; [discriminate|intros [[=] _]]].
  unfold handleChannel.
  destruct (decide (ChannelType c' = "session")) as [Hs|Hs];
    [split; [discriminate|intros ([= <-] & ? & _); contradiction]|].
  destruct (decide (ChannelType c' = "direct-tcpip")) as [Hd|Hd];
    [split; [discriminate|intros ([= <-] & _ & ? & _); contradiction]|].
  split.
  - intros [= <- <- <-]. tauto.
  - intros ([= <-] & _ & _ & -> & ->). reflexivity.
Qed.

(** ** Start-up *)

Section StartUpProperties.
Context `{HostLib : HostKeyLib}.

(** A restart finds the host key of the first start: on the file system the
    first start leaves behind, [NewSshServer] generates nothing, changes no
    file and ends as the first start did, with the same signer. This holds
    whenever the first start did not panic. *)
Theorem restart_keeps_host_key conf fs :
  (NewSshServer conf fs).2 <> Panic ->
  NewSshServer conf (NewSshServer conf fs).1.2
  = ([], (NewSshServer conf fs).1.2, (NewSshServer conf fs).2).
Proof.
  unfold NewSshServer. cbv zeta.
  destruct (fs (ExpandUserHome_path (Key conf))) as [k|] eqn:Hk.
  - intros _. cbn [fst snd]. now rewrite Hk.
  - destruct (GeneratePrivateKey (ExpandUserHome_path (Key conf)) fs
                (ExpandUserHome_path (Key conf))) as [k|] eqn:Hg;
      cbn [fst snd].
    + intros _. now rewrite Hg.
    + intros Hp. now contradiction Hp.
Qed.

(** The check at start-up does its job: once [NewSshServer] has returned a
    server, an authentication attempt on the file system as start-up left
    it returns to the caller, whatever key is presented; it does not end
    the process. *)
Theorem booted_keyAuth_returns conf fs srv conn pubKey :
  (NewSshServer conf fs).2 = Booted srv ->
  exists res,
    (keyAuth (authorizedKeyFile srv) (NewSshServer conf fs).1.2 conn pubKey).2
    = Return res.
Proof.
  unfold NewSshServer. cbv zeta.
  assert (Hgen : forall fs1 (read : option (list byte)),
             match read with
             | None => Panic
             | Some hostPrivateKey =>
                 match ParsePrivateKey hostPrivateKey with
                 | None => Panic
                 | Some signer =>
                     match loadAuthorizedKeys (AuthorizedKeysFile conf) fs1 with
                     | Exit _ => Fatal
                     | Return _ =>
                         Booted {| hostPrivateKey := signer;
                                   authorizedKeyFile := AuthorizedKeysFile conf;
                                   tcpPort := Port conf;
                                   registry := newServer |}
                     end
                 end
             end = Booted srv ->
             exists res,
               (keyAuth (authorizedKeyFile srv) fs1 conn pubKey).2
               = Return res).
  { intros fs1 [k|]; [|discriminate].
    destruct (ParsePrivateKey k) as [signer|]; [|discriminate].
    destruct (loadAuthorizedKeys (AuthorizedKeysFile conf) fs1)
      as [keys|st] eqn:Hload; [|discriminate].
    intros [= <-]. unfold keyAuth. cbn [snd authorizedKeyFile].
    rewrite Hload. destruct (index_bool keys (keyString pubKey)); eauto. }
  destruct (fs (ExpandUserHome_path (Key conf))) as [k|]; cbn [fst snd].
  - exact (Hgen fs (Some k)).
  - exact (Hgen _ (GeneratePrivateKey (ExpandUserHome_path (Key conf)) fs
                     (ExpandUserHome_path (Key conf)))).
Qed.

End StartUpProperties.

(** ** The accept loop *)

Lemma acceptLoop_never_fatal ts d : (acceptLoop ts d).2 <> Fatal.
Proof.
  revert d. induction ts as [|t ts IH]; intros d; cbn; [discriminate|].
  destruct t as [[conn|]|i r]; cbn; [apply IH|discriminate|].
  destruct (pending d !! i) as [conn|]; [|apply IH].
  destruct r; apply IH.
Qed.

Lemma acceptLoop_panic_iff ts d :
  (acceptLoop ts d).2 = Panic <-> Accept None ∈ ts.
Proof.
  revert d. induction ts as [|t ts IH]; intros d.
  - cbn. rewrite elem_of_nil. split; [discriminate|tauto].
  - rewrite elem_of_cons.
    assert (Hne : forall d', t <> Accept None ->
                    ((acceptLoop ts d').2 = Panic <->
                     Accept None = t \/ Accept None ∈ ts)).
    { intros d' Ht. rewrite IH. split; [tauto|]. intros [?|?]; [|assumption].
      congruence. }
    cbn [acceptLoop]. destruct t as [[conn|]|i r]; cbn [startTurn].
    + cbn [snd]. now apply Hne.
    + cbn [snd]. split; [intros _; now left|reflexivity].
    + destruct (pending d !! i) as [conn|]; [|cbn [snd]; now apply Hne].
      destruct r; cbn [snd]; now apply Hne.
Qed.

(** The server process ends only for an empty port (exit), or for a failed
    bind of the main port or a failed [Accept] (panic); a failed handshake
    never ends it. *)
Theorem Start_ends_iff tcpPort listenOk ts :
  ((Start tcpPort listenOk ts).2 = Fatal <-> tcpPort = "") /\
  ((Start tcpPort listenOk ts).2 = Panic <->
   tcpPort <> "" /\ (listenOk = false \/ Accept None ∈ ts)).
Proof.
  unfold Start. destruct (decide (tcpPort = "")) as [He|He]; cbn [snd].
  - split; [tauto|]. split; [discriminate|tauto].
  - destruct listenOk; cbn [snd].
    + split.
      * split; [|contradiction]. intros Hf.
        now apply acceptLoop_never_fatal in Hf.
      * rewrite acceptLoop_panic_iff. split; [tauto|].
        intros [_ [|]]; [discriminate|assumption].
    + split; [split; [discriminate|contradiction]|]. tauto.
Qed.

Lemma acceptLoop_client ts d d' :
  client d = last (serving d) ->
  (acceptLoop ts d).2 = Booted d' ->
  client d' = last (serving d') /\
  forall c, c ∈ pending d' ++ serving d' ->
            c ∈ pending d ++ serving d \/ Accept (Some c) ∈ ts.
Proof.
  intros Hc. revert d Hc. induction ts as [|t ts IH]; intros d Hc; cbn.
  - intros [= <-]. split; [exact Hc|]. tauto.
  - assert (Hstep : forall d1,
               client d1 = last (serving d1) ->
               (forall c, c ∈ pending d1 ++ serving d1 ->
                          c ∈ pending d ++ serving d \/ Accept (Some c) = t) ->
               (acceptLoop ts d1).2 = Booted d' ->
               client d' = last (serving d') /\
               forall c, c ∈ pending d' ++ serving d' ->
                         c ∈ pending d ++ serving d \/
                         Accept (Some c) ∈ t :: ts).
    { intros d1 Hc1 Hsub Hrun. destruct (IH d1 Hc1 Hrun) as [Hcl Hin].
      split; [exact Hcl|]. intros c Hcin. rewrite elem_of_cons.
      destruct (Hin c Hcin) as [H1|H1]; [|tauto].
      destruct (Hsub c H1); tauto. }
    destruct t as [[conn|]|i r]; cbn; [|discriminate|].
    + apply Hstep; [exact Hc|]. cbn. intros c.
      rewrite !elem_of_app, list_elem_of_singleton.
      intros [[?| ->]|?]; tauto.
    + destruct (pending d !! i) as [conn|] eqn:Hi; [|apply Hstep; tauto].
      destruct r as [fp|]; cbn; apply Hstep; cbn.
      * now rewrite last_snoc.
      * intros c. rewrite !elem_of_app, list_elem_of_singleton.
        intros [Hd|[?| ->]]; [|tauto|].
        -- apply list_elem_of_delete_inv in Hd. tauto.
        -- apply list_elem_of_lookup_2 in Hi. tauto.
      * exact Hc.
      * intros c. rewrite !elem_of_app.
        intros [Hd|?]; [|tauto]. apply list_elem_of_delete_inv in Hd. tauto.
Qed.

(** While the server runs, the one field [s.client] holds the connection
    that logged in last, whichever connection a forward belongs to; and the
    connections in their handshake or being served are connections that
    [Accept] returned. *)
Theorem Start_client_is_latest tcpPort listenOk ts d :
  (Start tcpPort listenOk ts).2 = Booted d ->
  client d = last (serving d) /\
  forall c, c ∈ pending d ++ serving d -> Accept (Some c) ∈ ts.
Proof.
  unfold Start. destruct (decide (tcpPort = "")); [discriminate|].
  destruct listenOk; [|discriminate]. cbn [snd]. intros Hrun.
  destruct (acceptLoop_client ts
              {| client := None; pending := []; serving := [] |} d
              eq_refl Hrun) as [Hc Hin].
  split; [exact Hc|]. intros c Hcin.
  destruct (Hin c Hcin) as [Hnil|?]; [|assumption].
  cbn in Hnil. now apply elem_of_nil in Hnil.
Qed.

(** ** The port of an address, as the tests take it *)

Lemma Split_no_sep s sep :
  sep ∉ list_ascii_of_string s -> Split s sep = [s].
Proof.
  induction s as [|c s IH]; cbn; [reflexivity|].
  rewrite not_elem_of_cons. intros [Hne Hs].
  destruct (Ascii.eqb_spec c sep) as [->|_]; [contradiction|].
  now rewrite (IH Hs).
Qed.

Lemma Split_not_nil s sep : Split s sep <> [].
Proof.
  destruct s as [|c s]; cbn; [discriminate|].
  destruct (Ascii.eqb c sep); [discriminate|].
  destruct (Split s sep); discriminate.
Qed.

Lemma Split_at_first host rest sep :
  sep ∉ list_ascii_of_string host ->
  Split (host +:+ String sep rest) sep = host :: Split rest sep.
Proof.
  induction host as [|c host IH]; simpl.
  - intros _. now rewrite Ascii.eqb_refl.
  - rewrite not_elem_of_cons. intros [Hne Hs].
    destruct (Ascii.eqb_spec c sep) as [->|_]; [contradiction|].
    now rewrite (IH Hs).
Qed.

(** For an address of the form host, colon, port, with no further colon,
    [getPort] is the port. *)
Theorem getPort_host_port host port :
  ":"%char ∉ list_ascii_of_string host ->
  ":"%char ∉ list_ascii_of_string port ->
  getPort (host +:+ ":" +:+ port) = Some port.
Proof.
  intros Hh Hp. unfold getPort.
  change (host +:+ ":" +:+ port) with (host +:+ String ":" port).
  now rewrite (Split_at_first host port ":" Hh), (Split_no_sep port ":" Hp).
Qed.

(** [getPort] indexes past the end, and so panics, exactly for an address
    without a colon. *)
Theorem getPort_panics_iff addr :
  getPort addr = None <-> ":"%char ∉ list_ascii_of_string addr.
Proof.
  unfold getPort. induction addr as [|c addr IH]; cbn.
  - split; [intros _; apply not_elem_of_nil|reflexivity].
  - rewrite not_elem_of_cons.
    destruct (Ascii.eqb_spec c ":"%char) as [->|Hne].
    + pose proof (Split_not_nil addr ":") as Hnil.
      destruct (Split addr ":") as [|p ps]; [contradiction|]. cbn.
      split; [discriminate|]. intros [Hc _]. now contradiction Hc.
    + destruct (Split addr ":") as [|p ps] eqn:Hs; cbn in *.
      * now contradiction (Split_not_nil addr ":").
      * rewrite IH. split; [|tauto]. intros H. split; [congruence|exact H].
Qed.

(** The first colon decides: with a colon inside the host part, as in an
    IPv6 literal, [getPort] does not return the port but what stands
    between the first two colons. *)
Theorem getPort_second_field first second rest :
  ":"%char ∉ list_ascii_of_string first ->
  ":"%char ∉ list_ascii_of_string second ->
  getPort (first +:+ ":" +:+ second +:+ ":" +:+ rest) = Some second.
Proof.
  intros Hf Hs. unfold getPort.
  change (first +:+ ":" +:+ second +:+ ":" +:+ rest)
    with (first +:+ String ":" (second +:+ String ":" rest)).
  now rewrite (Split_at_first first _ ":" Hf),
    (Split_at_first second rest ":" Hs).
Qed.
